(** * Buzzer melody players: the envelope sketch and its simpler siblings

    A shallow embedding of the Arduino sketches of the repository.  The
    sketches target AVR boards (they include [avr/pgmspace.h] and read their
    tables with [pgm_read_word]): [int] is 16 bits wide there, so arithmetic on
    [uint16_t] operands is done modulo [2^16], and every [uint32_t] expression
    modulo [2^32].  Integers are modelled as [Z] with each wrap-around written
    out, [float] as IEEE 754 binary32 through the standard library's
    [SpecFloat]; what a sketch does to the buzzer is a list of [action]s. *)

From Stdlib Require Import ZArith List Bool Lia.
From Stdlib Require Import Floats.SpecFloat.
Import ListNotations.
Local Open Scope Z_scope.

(** ** Machine integers and the Arduino core *)

Module Arduino.

Definition u8 (z : Z) : Z := z mod 2 ^ 8.
Definition u16 (z : Z) : Z := z mod 2 ^ 16.
Definition u32 (z : Z) : Z := z mod 2 ^ 32.

(** Conversions to [int8_t] and [int16_t]: two's complement wrap. *)
Definition s8 (z : Z) : Z := (z + 2 ^ 7) mod 2 ^ 8 - 2 ^ 7.
Definition s16 (z : Z) : Z := (z + 2 ^ 15) mod 2 ^ 16 - 2 ^ 15.

Definition is_u8 (z : Z) : Prop := 0 <= z < 2 ^ 8.
Definition is_u16 (z : Z) : Prop := 0 <= z < 2 ^ 16.

(** The three calls a sketch makes on the buzzer pin and the clock. *)
Inductive action : Type :=
| Tone (pin freq : Z)
| NoTone (pin : Z)
| Delay (ms : Z).

(** [map] of the Arduino core, on [long]; C division truncates. *)
Definition map (x in_min in_max out_min out_max : Z) : Z :=
  Z.quot ((x - in_min) * (out_max - out_min)) (in_max - in_min) + out_min.

(** [abs] of the Arduino core. *)
Definition abs (x : Z) : Z := if 0 <? x then x else - x.

(** [min] of the Arduino core: [((a) < (b) ? (a) : (b))]. *)
Definition min (a b : Z) : Z := if a <? b then a else b.

End Arduino.
Import Arduino.

(** ** Single-precision floats *)

Module Float32.

Definition prec : Z := 24.
Definition emax : Z := 128.

Definition float : Type := spec_float.

(** The float nearest to an integer; integers of 24 bits or less are exact. *)
Definition of_Z (z : Z) : float := binary_normalize prec emax z 0 false.
Definition half : float := binary_normalize prec emax 1 (-1) false.
Definition zero : float := S754_zero false.

Definition add : float -> float -> float := SFadd prec emax.
Definition sub : float -> float -> float := SFsub prec emax.
Definition mul : float -> float -> float := SFmul prec emax.
Definition div : float -> float -> float := SFdiv prec emax.
Definition ltb : float -> float -> bool := SFltb.

(** Conversion to an integer type drops the fraction.  (What C leaves
    undefined, a NaN or an infinity, is 0 here.) *)
Definition trunc (f : float) : Z :=
  match f with
  | S754_finite s m e =>
      let v := if 0 <=? e then Zpos m * 2 ^ e else Zpos m / 2 ^ (- e) in
      if s then - v else v
  | _ => 0
  end.

(** A stand-in for the C library's [powf], for running the sketches: 1 for
    a zero exponent, and for base 2 the power of two of the whole part of the
    exponent (exact whenever the exponent is whole). *)
Definition powf_whole (x y : float) : float :=
  match y with
  | S754_zero _ => of_Z 1
  | _ => if SFeqb x (of_Z 2)
         then SFldexp prec emax (of_Z 1) (trunc y)
         else of_Z 1
  end.

(** The twelve semitones of an octave, [2^(i/12)] for [i] from 0 to 11, each
    rounded to the nearest float. *)
Definition semitones : list float :=
  List.map (fun m => S754_finite false m (-23))
    [8388608; 8887421; 9415894; 9975792; 10568984; 11197448; 11863283;
     12568711; 13316085; 14107901; 14946800; 15835583]%positive.

(** A finer stand-in for [powf]: 1 for a zero exponent, and for base 2 and an
    exponent of [k/12] the float nearest to [2^(k/12)], from the table of
    semitones and a shift by whole octaves. *)
Definition powf_semitones (x y : float) : float :=
  match y with
  | S754_zero _ => of_Z 1
  | _ =>
      if SFeqb x (of_Z 2)
      then
        let t := mul y (of_Z 12) in
        let k := match t with
                 | S754_finite true _ _ => trunc (sub t half)
                 | _ => trunc (add t half)
                 end in
        SFldexp prec emax (nth (Z.to_nat (k mod 12)) semitones (of_Z 1)) (k / 12)
      else of_Z 1
  end.

End Float32.
Import Float32.

(** ** What a listener gets from a trace *)

(** Total time a trace takes. *)
Fixpoint elapsed_ms (tr : list action) : Z :=
  match tr with
  | [] => 0
  | Delay ms :: tr' => ms + elapsed_ms tr'
  | _ :: tr' => elapsed_ms tr'
  end.

(** Time during which the tone output is enabled, [on] being its state when the
    trace starts. *)
Fixpoint audible_ms (on : bool) (tr : list action) : Z :=
  match tr with
  | [] => 0
  | Tone _ _ :: tr' => audible_ms true tr'
  | NoTone _ :: tr' => audible_ms false tr'
  | Delay ms :: tr' => (if on then ms else 0) + audible_ms on tr'
  end.

(** State of the tone output when a trace ends. *)
Fixpoint tone_after (on : bool) (tr : list action) : bool :=
  match tr with
  | [] => on
  | Tone _ _ :: tr' => tone_after true tr'
  | NoTone _ :: tr' => tone_after false tr'
  | Delay _ :: tr' => tone_after on tr'
  end.

(** Whether a trace ever enables the tone output. *)
Definition enables_tone (tr : list action) : bool :=
  existsb (fun a => match a with Tone _ _ => true | _ => false end) tr.

(** Whether every tone of a trace is on [pin] at a frequency between [lo] and
    [hi]. *)
Definition tones_in (pin lo hi : Z) (tr : list action) : bool :=
  forallb (fun a => match a with
                    | Tone p f => (p =? pin) && (lo <=? f) && (f <=? hi)
                    | _ => true
                    end) tr.

(** ** Tick conversion, shared by the sketches

    [ticksToMs] has the same body in every sketch that has it; the tempo
    constants and the type of [ticks] differ, so both are arguments here:
    [ticks32] is the value of [(uint32_t)ticks]. *)

Definition ticksToMs_body (bpm ticks_per_beat ticks32 : Z) : Z :=
  let num := u32 (ticks32 * 60000) in
  let den := u32 (bpm * ticks_per_beat) in
  u16 (u32 (num + den / 2) / den).

(** Rounding [p / q] to the nearest integer, halves upwards, in exact
    arithmetic: the specification's [round]. *)
Definition round_half_up (p q : Z) : Z := (2 * p + q) / (2 * q).

(** A [for (s = 0; s < steps; s++)] loop whose body only acts on the buzzer:
    [n] counts the iterations still to run. *)
Fixpoint for_steps (body : Z -> list action) (s : Z) (n : nat) : list action :=
  match n with
  | O => []
  | S n' => body s ++ for_steps body (s + 1) n'
  end.

(** The sum of [f s], [f (s + 1)], ... over [n] indices: what such a loop adds
    up. *)
Fixpoint sum_steps (f : Z -> Z) (s : Z) (n : nat) : Z :=
  match n with
  | O => 0
  | S n' => f s + sum_steps f (s + 1) n'
  end.

(** ** The envelope sketch ([test-new-song-envelope-newjson.ino], first sketch) *)

Module EnvelopeSketch.

Definition BUZZ_PIN : Z := 9.
Definition TICKS_PER_BEAT : Z := 384.
Definition BPM : Z := 132.
Definition MIN_NOTE_MS_GAP : Z := 8.

(** The envelope and gating constants of the sketch, gathered so that
    statements can range over other settings of them. *)
Record envelope_config : Type := {
  GATE_PERIOD_MS : Z;   (* uint8_t *)
  ATTACK_PCT : Z;       (* uint8_t *)
  RELEASE_PCT : Z;      (* uint8_t *)
  ATTACK_MIN_MS : Z;    (* uint16_t *)
  ATTACK_MAX_MS : Z;    (* uint16_t *)
  RELEASE_MIN_MS : Z;   (* uint16_t *)
  RELEASE_MAX_MS : Z    (* uint16_t *)
}.

Definition sketch_config : envelope_config := {|
  GATE_PERIOD_MS := 3;
  ATTACK_PCT := 10;
  RELEASE_PCT := 12;
  ATTACK_MIN_MS := 10;
  ATTACK_MAX_MS := 35;
  RELEASE_MIN_MS := 12;
  RELEASE_MAX_MS := 50
|}.

(** A configuration whose constants fit their declared types. *)
Definition config_typed (cfg : envelope_config) : Prop :=
  is_u8 (GATE_PERIOD_MS cfg) /\ is_u8 (ATTACK_PCT cfg) /\ is_u8 (RELEASE_PCT cfg) /\
  is_u16 (ATTACK_MIN_MS cfg) /\ is_u16 (ATTACK_MAX_MS cfg) /\
  is_u16 (RELEASE_MIN_MS cfg) /\ is_u16 (RELEASE_MAX_MS cfg).

(** [ticksToMs(uint16_t ticks)]. *)
Definition ticksToMs (ticks : Z) : Z :=
  ticksToMs_body BPM TICKS_PER_BEAT ticks.

Definition pitchPotToTranspose (pot0_1023 : Z) : Z :=
  let centered := pot0_1023 - 512 in
  if Arduino.abs centered <? 35 then 0
  else s8 (Arduino.map pot0_1023 0 1023 (-12) 12).

Definition volPotToLevel (pot0_1023 : Z) : Z :=
  u8 (Arduino.map pot0_1023 0 1023 10 255).

(** Attack and release after the percentage computation and the clamping
    (the first half of the envelope computation of [playToneWithEnvelope]). *)
Definition clampedMs (cfg : envelope_config) (durMs : Z) : Z * Z :=
  let attackMs := u16 (u32 (durMs * ATTACK_PCT cfg) / 100) in
  let releaseMs := u16 (u32 (durMs * RELEASE_PCT cfg) / 100) in
  let attackMs := if attackMs <? ATTACK_MIN_MS cfg then ATTACK_MIN_MS cfg else attackMs in
  let attackMs := if ATTACK_MAX_MS cfg <? attackMs then ATTACK_MAX_MS cfg else attackMs in
  let releaseMs := if releaseMs <? RELEASE_MIN_MS cfg then RELEASE_MIN_MS cfg else releaseMs in
  let releaseMs := if RELEASE_MAX_MS cfg <? releaseMs then RELEASE_MAX_MS cfg else releaseMs in
  (attackMs, releaseMs).

(** [attackMs], [releaseMs] and [holdMs] as [playToneWithEnvelope] has them
    when it starts gating.  The sums and differences of [uint16_t] values
    are [unsigned int] on the target, hence taken modulo [2^16]. *)
Definition envelopeMs (cfg : envelope_config) (durMs : Z) : Z * Z * Z :=
  let '(attackMs, releaseMs) := clampedMs cfg durMs in
  let '(attackMs, releaseMs) :=
    if durMs <=? u16 (attackMs + releaseMs) then
      let half := durMs / 2 in
      let attackMs := Arduino.min attackMs half in
      let releaseMs := Arduino.min releaseMs (u16 (durMs - attackMs)) in
      (attackMs, releaseMs)
    else (attackMs, releaseMs) in
  let holdMs :=
    if u16 (attackMs + releaseMs) <? durMs
    then u16 (durMs - attackMs - releaseMs) else 0 in
  (attackMs, releaseMs, holdMs).

Definition attackMs (cfg : envelope_config) (durMs : Z) : Z :=
  fst (fst (envelopeMs cfg durMs)).
Definition releaseMs (cfg : envelope_config) (durMs : Z) : Z :=
  snd (fst (envelopeMs cfg durMs)).
Definition holdMs (cfg : envelope_config) (durMs : Z) : Z :=
  snd (envelopeMs cfg durMs).

(** The number of gates of a phase of [ms] milliseconds. *)
Definition gateSteps (cfg : envelope_config) (ms : Z) : Z :=
  if 0 <? ms / GATE_PERIOD_MS cfg then ms / GATE_PERIOD_MS cfg else 1.

(** [lvl] of gate [s]: [levelEnd - levelStart] is an [int], its conversion
    to [uint32_t] wraps when it is negative, and so does the product. *)
Definition gateLevel (levelStart levelEnd steps s : Z) : Z :=
  u8 (u32 (levelStart
           + u32 (u32 (levelEnd - levelStart) * s)
             / (if steps - 1 =? 0 then 1 else steps - 1))).

(** The level the specification gives gate [s]: the same formula read in
    exact integer arithmetic, a linear interpolation from [levelStart] to
    [levelEnd] with denominator [max(1, steps - 1)]. *)
Definition linear_level (levelStart levelEnd steps s : Z) : Z :=
  levelStart + Z.quot ((levelEnd - levelStart) * s) (Z.max 1 (steps - 1)).

Definition gateOnMs (cfg : envelope_config) (lvl : Z) : Z :=
  u16 (u32 (GATE_PERIOD_MS cfg * lvl) / 255).

(** One gate: the tone for [onMs], then silence for the rest of the period. *)
Definition gate (cfg : envelope_config) (freq lvl : Z) : list action :=
  let onMs := gateOnMs cfg lvl in
  let offMs := u16 (GATE_PERIOD_MS cfg - onMs) in
  (if 0 <? onMs then [Tone BUZZ_PIN freq; Delay onMs] else [])
  ++ [NoTone BUZZ_PIN]
  ++ (if 0 <? offMs then [Delay offMs] else []).

(** The lambda [gateFor] of [playToneWithEnvelope]. *)
Definition gateFor (cfg : envelope_config) (freq ms levelStart levelEnd : Z)
  : list action :=
  if ms =? 0 then []
  else
    let steps := gateSteps cfg ms in
    for_steps (fun s => gate cfg freq (gateLevel levelStart levelEnd steps s))
              0 (Z.to_nat steps).

Section Sketch.

(** The hold loop of [playToneWithEnvelope] takes its number of steps
    from an identifier [ms] that no declaration in its scope binds (it is
    the parameter of [gateFor] only); its value is a parameter here. *)
Variable ms : Z.

(** [powf] of the C library, which the sketch only calls. *)
Variable powf : float -> float -> float.

(** The local [f] of [midiNoteToFreq]. *)
Definition noteFrequency (midiNote : Z) : float :=
  mul (of_Z 440)
      (powf (of_Z 2) (div (sub (of_Z midiNote) (of_Z 69)) (of_Z 12))).

Definition midiNoteToFreq (midiNote : Z) : Z :=
  let f := noteFrequency midiNote in
  if ltb f (of_Z 60) then 0
  else if ltb (of_Z 4000) f then 4000
  else u16 (trunc (add f half)).

Definition playToneWithEnvelope (cfg : envelope_config)
  (freq durMs volLevel : Z) : list action :=
  if (freq =? 0) || (durMs =? 0) then [NoTone BUZZ_PIN; Delay durMs]
  else
    let '(attackMs, releaseMs, holdMs) := envelopeMs cfg durMs in
    gateFor cfg freq attackMs 0 volLevel
    ++ (if 0 <? holdMs
        then for_steps (fun _ => gate cfg freq volLevel)
                       0 (Z.to_nat (gateSteps cfg ms))
        else [])
    ++ gateFor cfg freq releaseMs volLevel 0
    ++ [NoTone BUZZ_PIN].

(** The inter-note gap and the sounding duration [loop] derives from the
    duration of an event. *)
Definition noteGap (durMs : Z) : Z :=
  if durMs <=? u16 (MIN_NOTE_MS_GAP + 5) then 0 else MIN_NOTE_MS_GAP.

Definition notePlayMs (durMs : Z) : Z :=
  if 0 <? noteGap durMs then u16 (durMs - noteGap durMs) else durMs.

(** One iteration of the [for] loop of [loop]: the event [(note, ticks)]
    with the two pot readings taken during it. *)
Definition playEvent (note ticks volPot pitPot : Z) : list action :=
  let durMs := ticksToMs ticks in
  let volLevel := volPotToLevel volPot in
  let transpose := pitchPotToTranspose pitPot in
  if note <? 0 then [NoTone BUZZ_PIN; Delay durMs]
  else
    let playNote := s16 (note + transpose) in
    let playNote := if playNote <? 0 then 0 else playNote in
    let playNote := if 127 <? playNote then 127 else playNote in
    let freq := midiNoteToFreq playNote in
    let gap := noteGap durMs in
    let playMs := notePlayMs durMs in
    playToneWithEnvelope sketch_config freq playMs volLevel
    ++ (if 0 <? gap then [NoTone BUZZ_PIN; Delay gap] else []).

(** One pass of [loop] over the events, each with its pot readings. *)
Definition loop (events : list (Z * Z * Z * Z)) : list action :=
  flat_map (fun '(note, ticks, volPot, pitPot) =>
              playEvent note ticks volPot pitPot) events
  ++ [Delay 2500].

End Sketch.

(** The note [loop] has converted to a frequency: transposed by the pitch
    pot, then clamped. *)
Definition playNote (note pitPot : Z) : Z :=
  let playNote := s16 (note + pitchPotToTranspose pitPot) in
  let playNote := if playNote <? 0 then 0 else playNote in
  if 127 <? playNote then 127 else playNote.

(** The exponent [midiNoteToFreq] passes to [powf]. *)
Definition noteExponent (midiNote : Z) : float :=
  div (sub (of_Z midiNote) (of_Z 69)) (of_Z 12).

(** [x] is a positive finite float within one percent of [2^(k/12)]: with
    [x = m * 2^e], and everything raised to the twelfth power and scaled by
    [2^(12 * 149)] to stay within the integers,
    [99^12 * 2^k <= (100 * x)^12 <= 101^12 * 2^k]. *)
Definition within_1pct (x : float) (k : Z) : bool :=
  match x with
  | S754_finite false m e =>
      bounded prec emax m e
      && (99 ^ 12 * 2 ^ (k + 1788) <=? (100 * (Zpos m * 2 ^ (e + 149))) ^ 12)
      && ((100 * (Zpos m * 2 ^ (e + 149))) ^ 12 <=? 101 ^ 12 * 2 ^ (k + 1788))
  | _ => false
  end.

(** What is asked of the C library's [powf]: 1 for a zero exponent, as the C
    standard has it, and on the exponents of the 128 MIDI notes a result
    within one percent of the power of two. *)
Definition powf_accurate (powf : float -> float -> float) : Prop :=
  powf (of_Z 2) zero = of_Z 1
  /\ forall note, 0 <= note <= 127 ->
       within_1pct (powf (of_Z 2) (noteExponent note)) (note - 69) = true.

(** The frequency [440 * 2^((note - 69) / 12)] of a note against a whole
    number of hertz, compared exactly: both sides raised to the twelfth power
    and multiplied by [2^69]. *)
Definition freq_below (note bound : Z) : Prop :=
  440 ^ 12 * 2 ^ note < bound ^ 12 * 2 ^ 69.

Definition freq_above (note bound : Z) : Prop :=
  bound ^ 12 * 2 ^ 69 < 440 ^ 12 * 2 ^ note.

End EnvelopeSketch.

(** ** The plain sketch (second sketch of [test-new-song-envelope-newjson.ino]) *)

Module PlainSketch.

Definition BUZZ_PIN : Z := 9.
Definition BPM : Z := 120.
Definition TICKS_PER_BEAT : Z := 384.
Definition TRANSPOSE : Z := 0.

(** [ticksToMs(int16_t ticks)]: the conversion of [ticks] to [uint32_t]
    wraps a negative value. *)
Definition ticksToMs (ticks : Z) : Z :=
  ticksToMs_body BPM TICKS_PER_BEAT (u32 ticks).

Definition SONG_NOTES : list Z :=
  [(-1); 76; 83; 67; 76; 72; 76; 83; 76; 72; 74; 76; 72; 83; 76; 72; 74;
   76; 88; 93; 86; 93; 88; 79; 80; 81; 80; 79; 81; 80; 79; 81; 79; 80; 81;
   80; 79; 81; 80; 79; 81; 76; 77; 76; 79; 77; 53; 76; 64; 77; 60; 79; 76;
   64; 77; 79; 76; 93; 91; 93; 76; 91; 90; 92; 79; 80; 81; 80; 79; 81; 80;
   79; 81; 86; 96; 86; 96; 81; 96; 86; 81; 84; 83; 96; 95; 81; 79; 77; 76;
   77; 76; 79; 77; 53; 76; 64; 77; 60; 79; 59; 76; 64; 77; 79; 59; 79; 76;
   93; 91; 93; 76; 91; 90; 92].

Definition SONG_TICKS : list Z :=
  [2688; 7488; 1344; 96; 3744; 96; 96; 1344; 1440; 96; 384; 4896; 96; 1344;
   1632; 96; 384; 2688; 672; 768; 864; 192; 384; 1536; 1536; 1536; 768;
   768; 1536; 768; 768; 1536; 1536; 1536; 1536; 768; 768; 1536; 768; 768;
   1536; 6144; 768; 768; 2112; 96; 96; 96; 96; 96; 96; 192; 672; 96; 192;
   192; 576; 1536; 1536; 1440; 96; 1536; 1536; 1536; 1536; 1536; 1536; 768;
   768; 1536; 768; 768; 1536; 1536; 96; 288; 1056; 96; 96; 864; 576; 1536;
   1536; 96; 1056; 384; 1536; 1536; 1536; 768; 768; 2112; 96; 96; 96; 96;
   96; 96; 96; 96; 576; 96; 96; 96; 96; 96; 576; 1536; 1536; 1440; 96;
   1536; 1536; 3072].

(** The note [loop] plays for a table entry: transposed, then clamped. *)
Definition playNote (note : Z) : Z :=
  let playNote := s16 (note + TRANSPOSE) in
  let playNote := if playNote <? 0 then 0 else playNote in
  if 127 <? playNote then 127 else playNote.

Section Player.

Variable powf : float -> float -> float.

(** [midiNoteToFreq] has the body it has in the envelope sketch. *)
Definition midiNoteToFreq (midiNote : Z) : Z :=
  EnvelopeSketch.midiNoteToFreq powf midiNote.

(** Whether an entry makes a sound: a note whose frequency is not 0. *)
Definition sounds (note : Z) : bool :=
  negb (note <? 0) && negb (midiNoteToFreq (playNote note) =? 0).

(** One iteration of the [for] loop of [loop]. *)
Definition playEvent (note tks : Z) : list action :=
  let durMs := ticksToMs tks in
  if note <? 0 then [NoTone BUZZ_PIN; Delay durMs]
  else
    let freq := midiNoteToFreq (playNote note) in
    if freq =? 0 then [NoTone BUZZ_PIN; Delay durMs]
    else [Tone BUZZ_PIN freq; Delay durMs; NoTone BUZZ_PIN; Delay 5].

(** [loop] over given tables, [N] being the length of the first; an index
    past the end of a table, undefined in C, reads 0. *)
Definition loop_over (notes ticks : list Z) : list action :=
  for_steps (fun i => playEvent (nth (Z.to_nat i) notes 0)
                                (nth (Z.to_nat i) ticks 0))
            0 (length notes)
  ++ [Delay 2000].

Definition loop : list action := loop_over SONG_NOTES SONG_TICKS.

End Player.

End PlainSketch.

(** ** The table sketch (first sketch of the unnamed part) *)

Module TableSketch.

Definition BUZZ_PIN : Z := 9.

Definition melody : list Z :=
  [0; 262; 0; 392; 0; 523; 0; 659; 392; 196; 0; 622; 311; 0; 98; 0; 131; 0;
   98; 0; 131; 0; 98; 0; 131; 0; 98; 0; 131; 0; 98; 0; 131; 0; 98; 0; 262;
   0; 392; 0; 523; 0; 622; 784; 0; 1047; 523; 330; 0; 98; 0; 131; 0; 98; 0;
   131; 0; 98; 0; 131; 0; 98; 0; 131; 0; 98; 0; 131; 0; 98; 0; 262; 0; 392;
   0; 523; 0; 659; 131; 0; 880; 698; 523; 147; 87; 880; 988; 1047; 1175;
   1319; 698; 1397; 1568; 1319; 1397; 1568; 784; 1760; 880; 988; 1976;
   2093; 1047].

Definition durations : list Z :=
  [4057; 1886; 222; 1833; 212; 3322; 289; 112; 19; 84; 112; 3693; 78; 107;
   88; 207; 89; 209; 113; 195; 93; 229; 105; 212; 96; 249; 110; 234; 102;
   289; 118; 264; 110; 313; 115; 358; 1674; 318; 1801; 148; 3462; 345; 19;
   103; 177; 3692; 10; 10; 154; 92; 238; 73; 240; 105; 226; 86; 228; 88;
   253; 89; 269; 102; 264; 93; 282; 96; 304; 98; 315; 103; 91; 251; 1746;
   323; 1735; 334; 3493; 272; 181; 27; 72; 3522; 10; 128; 13; 38; 362; 338;
   2775; 1338; 588; 13; 675; 2863; 300; 300; 2313; 38; 1466; 47; 16; 1797;
   9363; 62].

(** One iteration of the [for] loop of [loop]; [delay] takes an
    [unsigned long]. *)
Definition playEntry (freq dur : Z) : list action :=
  (if freq <=? 0 then [NoTone BUZZ_PIN; Delay (u32 dur)]
   else
     let freq := if freq <? 60 then 60 else freq in
     let freq := if 4000 <? freq then 4000 else freq in
     [Tone BUZZ_PIN freq; Delay (u32 dur); NoTone BUZZ_PIN])
  ++ [Delay 10].

(** [loop] over given tables, [N] being the length of the first; an index
    past the end of a table, undefined in C, reads 0. *)
Definition loop_over (melody durations : list Z) : list action :=
  for_steps (fun i => playEntry (nth (Z.to_nat i) melody 0)
                                (nth (Z.to_nat i) durations 0))
            0 (length melody)
  ++ [Delay 3000].

Definition loop : list action := loop_over melody durations.

End TableSketch.

(** ** The gated sketch (second sketch of the unnamed part): rests

    This sketch polls a pause button and the clock while it waits.  The
    clock is idealised: [millis] advances by what [delay] is given and by
    nothing else, and the button pin is read as a function of that time. *)

Module GatedSketch.

Definition BUZZ_PIN : Z := 9.
Definition DEBOUNCE_MS : Z := 25.
Definition HIGH : bool := true.
Definition LOW : bool := false.

(** The clock, the file-scope [paused], the statics of [handlePauseButton],
    and what has been done to the buzzer so far. *)
Record world : Type := {
  now : Z;
  paused : bool;
  lastStable : bool;
  lastRead : bool;
  lastChangeMs : Z;
  trace : list action
}.

Definition emit (a : action) (w : world) : world :=
  {| now := now w; paused := paused w; lastStable := lastStable w;
     lastRead := lastRead w; lastChangeMs := lastChangeMs w;
     trace := trace w ++ [a] |}.

Definition noTone (w : world) : world := emit (NoTone BUZZ_PIN) w.

Definition delay (ms : Z) (w : world) : world :=
  emit (Delay ms)
       {| now := u32 (now w + ms); paused := paused w;
          lastStable := lastStable w; lastRead := lastRead w;
          lastChangeMs := lastChangeMs w; trace := trace w |}.

Definition millis (w : world) : Z := now w.

Section Button.

(** Level of [BTN_PIN] at each time. *)
Variable digitalRead : Z -> bool.

Definition handlePauseButton (w : world) : world :=
  let r := digitalRead (now w) in
  let w :=
    if negb (Bool.eqb r (lastRead w))
    then {| now := now w; paused := paused w; lastStable := lastStable w;
            lastRead := r; lastChangeMs := millis w; trace := trace w |}
    else w in
  if (DEBOUNCE_MS <? u32 (millis w - lastChangeMs w))
     && negb (Bool.eqb r (lastStable w))
  then
    let w := {| now := now w; paused := paused w; lastStable := r;
                lastRead := lastRead w; lastChangeMs := lastChangeMs w;
                trace := trace w |} in
    if Bool.eqb (lastStable w) LOW
    then
      let w := {| now := now w; paused := negb (paused w);
                  lastStable := lastStable w; lastRead := lastRead w;
                  lastChangeMs := lastChangeMs w; trace := trace w |} in
      if paused w then noTone w else w
    else w
  else w.

(** [while (paused) { handlePauseButton(); delay(5); }]; [None] when the
    fuel runs out before the pause ends. *)
Fixpoint waitWhilePaused (fuel : nat) (w : world) : option world :=
  if paused w
  then match fuel with
       | O => None
       | S fuel' => waitWhilePaused fuel' (delay 5 (handlePauseButton w))
       end
  else Some w.

(** The [while] loop of [playRest], started at [t0]. *)
Fixpoint restLoop (fuel : nat) (t0 durMs : Z) (w : world) : option world :=
  if u32 (millis w - t0) <? durMs
  then match fuel with
       | O => None
       | S fuel' =>
           match waitWhilePaused fuel (handlePauseButton w) with
           | None => None
           | Some w' => restLoop fuel' t0 durMs (delay 2 w')
           end
       end
  else Some w.

Definition playRest (fuel : nat) (durMs : Z) (w : world) : option world :=
  let w := noTone w in
  let t0 := millis w in
  restLoop fuel t0 durMs w.




End Button.

(** One world extends another by a trace that never enables the tone. *)
Definition extends_silently (w w' : world) : Prop :=
  exists tr, trace w' = trace w ++ tr /\ enables_tone tr = false.

Definition BPM : Z := 120.
Definition TICKS_PER_BEAT : Z := 384.
Definition TRANSPOSE : Z := 0.
Definition SLICE_MS : Z := 8.

Definition one : float := of_Z 1.
Definition one_and_half : float := binary_normalize prec emax 3 (-1) false.

Definition ticksToMs (ticks : Z) : Z :=
  ticksToMs_body BPM TICKS_PER_BEAT (u32 ticks).

Definition tone (freq : Z) (w : world) : world := emit (Tone BUZZ_PIN freq) w.

(** The frequency [playToneGated] passes to [tone]: the note's, times the
    pitch multiplier, rounded and clamped. *)
Definition adjFreq (freq : Z) (pitchMul : float) : Z :=
  let adj := u32 (trunc (add (mul (of_Z freq) pitchMul) half)) in
  let adj := if adj <? 60 then 60 else adj in
  let adj := if 4000 <? adj then 4000 else adj in
  u16 adj.

(** The volume duty after its clamping to [0, 1]. *)
Definition clampDuty (volDuty : float) : float :=
  let volDuty := if ltb volDuty zero then zero else volDuty in
  if ltb one volDuty then one else volDuty.

Definition sliceOf (remaining : Z) : Z :=
  if SLICE_MS <=? remaining then SLICE_MS else u8 remaining.

(** [onMs] of a slice, after its capping at the slice. *)
Definition sliceOnMs (slice : Z) (volDuty : float) : Z :=
  let onMs := u8 (trunc (add (mul (of_Z slice) volDuty) half)) in
  if slice <? onMs then slice else onMs.

(** What one slice does to the buzzer, after the pause handling. *)
Definition playSlice (adjFreq slice onMs : Z) (w : world) : world :=
  let w := if 0 <? onMs then delay onMs (tone adjFreq w) else noTone w in
  if onMs <? slice then delay (u8 (slice - onMs)) (noTone w) else noTone w.

(** One world extends another by a trace whose tones are all on the buzzer
    pin, between 60 and 4000 Hz. *)
Definition extends_in_range (w w' : world) : Prop :=
  exists tr, trace w' = trace w ++ tr /\ tones_in BUZZ_PIN 60 4000 tr = true.

(** The world when [loop] first runs: not paused, the statics of
    [handlePauseButton] at their initial values. *)
Definition start : world :=
  {| now := 0; paused := false; lastStable := HIGH; lastRead := HIGH;
     lastChangeMs := 0; trace := [] |}.

Section Player.

Variable digitalRead : Z -> bool.

(** What [analogRead] returns for the volume and the pitch pot at each
    time. *)
Variable analogReadVol analogReadPitch : Z -> Z.

Variable powf : float -> float -> float.

Definition readPitchMultiplier (w : world) : float :=
  let raw := analogReadPitch (now w) in
  add half (mul (div (of_Z raw) (of_Z 1023)) one_and_half).

Definition readVolumeDuty (w : world) : float :=
  let raw := analogReadVol (now w) in
  div (of_Z raw) (of_Z 1023).

(** The [while (remaining > 0)] loop of [playToneGated]. *)
Fixpoint gatedLoop (fuel : nat) (adjFreq : Z) (volDuty : float)
  (remaining : Z) (w : world) : option world :=
  if 0 <? remaining
  then match fuel with
       | O => None
       | S fuel' =>
           match waitWhilePaused digitalRead fuel
                   (handlePauseButton digitalRead w) with
           | None => None
           | Some w =>
               let slice := sliceOf remaining in
               let onMs := sliceOnMs slice volDuty in
               gatedLoop fuel' adjFreq volDuty (u16 (remaining - slice))
                         (playSlice adjFreq slice onMs w)
           end
       end
  else Some w.

Definition playToneGated (fuel : nat) (freq durMs : Z) (w : world)
  : option world :=
  let pitchMul := readPitchMultiplier w in
  let volDuty := readVolumeDuty w in
  match gatedLoop fuel (adjFreq freq pitchMul) (clampDuty volDuty) durMs w with
  | None => None
  | Some w => Some (delay 5 w)
  end.

(** One iteration of the [for] loop of [loop]. *)
Definition playEvent (fuel : nat) (note tks : Z) (w : world) : option world :=
  match waitWhilePaused digitalRead fuel (handlePauseButton digitalRead w) with
  | None => None
  | Some w =>
      let durMs := ticksToMs tks in
      if note <? 0 then playRest digitalRead fuel durMs w
      else
        let playNote := s16 (note + TRANSPOSE) in
        let playNote := if playNote <? 0 then 0 else playNote in
        let playNote := if 127 <? playNote then 127 else playNote in
        let baseFreq := EnvelopeSketch.midiNoteToFreq powf playNote in
        if baseFreq =? 0 then playRest digitalRead fuel durMs w
        else playToneGated fuel baseFreq durMs w
  end.

(** The events from index [i] on, [n] of them. *)
Fixpoint playEvents (fuel : nat) (notes ticks : list Z) (i : Z) (n : nat)
  (w : world) : option world :=
  match n with
  | O => Some w
  | S n' =>
      match playEvent fuel (nth (Z.to_nat i) notes 0)
                      (nth (Z.to_nat i) ticks 0) w with
      | None => None
      | Some w => playEvents fuel notes ticks (i + 1) n' w
      end
  end.

(** [loop] over given tables; an index past the end of a table, undefined
    in C, reads 0. *)
Definition loop_over (fuel : nat) (notes ticks : list Z) (w : world)
  : option world :=
  match playEvents fuel notes ticks 0 (length notes) w with
  | None => None
  | Some w => playRest digitalRead fuel 2000 w
  end.

End Player.

End GatedSketch.

(** * Properties *)

(** ** Wrap-around *)

Lemma u8_small (z : Z) : 0 <= z < 2 ^ 8 -> u8 z = z.
Proof. intros H. unfold u8. now apply Z.mod_small. Qed.

Lemma u16_small (z : Z) : 0 <= z < 2 ^ 16 -> u16 z = z.
Proof. intros H. unfold u16. now apply Z.mod_small. Qed.

Lemma u32_small (z : Z) : 0 <= z < 2 ^ 32 -> u32 z = z.
Proof. intros H. unfold u32. now apply Z.mod_small. Qed.

Lemma u16_range (z : Z) : 0 <= u16 z < 2 ^ 16.
Proof. unfold u16. apply Z.mod_pos_bound. lia. Qed.

Lemma u8_range (z : Z) : 0 <= u8 z < 2 ^ 8.
Proof. unfold u8. apply Z.mod_pos_bound. lia. Qed.

(** Narrowing to 8 bits forgets an earlier wrap at 32 bits. *)
Lemma u8_u32 (z : Z) : u8 (u32 z) = u8 z.
Proof.
  unfold u8, u32. apply Z.mod_mod_divide.
  exists (2 ^ 24). reflexivity.
Qed.

Lemma min_spec (a b : Z) : Arduino.min a b = Z.min a b.
Proof. unfold Arduino.min. destruct (Z.ltb_spec a b); lia. Qed.

(** ** [ticksToMs] *)

(** Adding half the divisor before dividing rounds to nearest, halves up. *)
Lemma add_half_div (p q : Z) :
  0 < q -> (p + q / 2) / q = round_half_up p q.
Proof.
  intros Hq. unfold round_half_up.
  rewrite <- Z.div_div by lia.
  replace (2 * p + q) with (p * 2 + q) by lia.
  rewrite Z.div_add_l by lia. reflexivity.
Qed.

Lemma round_half_up_mono (p1 p2 q : Z) :
  0 < q -> p1 <= p2 -> round_half_up p1 q <= round_half_up p2 q.
Proof.
  intros Hq Hp. unfold round_half_up. apply Z.div_le_mono; lia.
Qed.

(** The body of [ticksToMs] rounds exactly as long as neither the 32-bit
    intermediate values nor the 16-bit result wrap. *)
Lemma ticksToMs_body_rounds (bpm tpb t : Z) :
  0 <= t ->
  0 < bpm * tpb < 2 ^ 32 ->
  t * 60000 + bpm * tpb / 2 < 2 ^ 32 ->
  round_half_up (t * 60000) (bpm * tpb) < 2 ^ 16 ->
  ticksToMs_body bpm tpb t = round_half_up (t * 60000) (bpm * tpb).
Proof.
  intros Ht Hden Hnum Hres. unfold ticksToMs_body.
  assert (0 <= bpm * tpb / 2) by (apply Z.div_pos; lia).
  rewrite (u32_small (bpm * tpb)) by lia.
  rewrite (u32_small (t * 60000)) by lia.
  rewrite u32_small by lia.
  rewrite add_half_div by lia.
  apply u16_small. split; [|assumption].
  unfold round_half_up. apply Z.div_pos; lia.
Qed.

Lemma envelope_ticksToMs_rounds (ticks : Z) :
  0 <= ticks <= 55364 ->
  EnvelopeSketch.ticksToMs ticks
  = round_half_up (ticks * 60000) (EnvelopeSketch.BPM * EnvelopeSketch.TICKS_PER_BEAT).
Proof.
  intros H. unfold EnvelopeSketch.ticksToMs.
  apply ticksToMs_body_rounds;
    unfold EnvelopeSketch.BPM, EnvelopeSketch.TICKS_PER_BEAT; try lia.
  - change (132 * 384 / 2) with 25344. lia.
  - unfold round_half_up. apply Z.div_lt_upper_bound; lia.
Qed.

Lemma plain_ticksToMs_rounds (ticks : Z) :
  0 <= ticks <= 32767 ->
  PlainSketch.ticksToMs ticks
  = round_half_up (ticks * 60000) (PlainSketch.BPM * PlainSketch.TICKS_PER_BEAT).
Proof.
  intros H. unfold PlainSketch.ticksToMs.
  rewrite u32_small by lia.
  apply ticksToMs_body_rounds;
    unfold PlainSketch.BPM, PlainSketch.TICKS_PER_BEAT; try lia.
  - change (120 * 384 / 2) with 23040. lia.
  - unfold round_half_up. apply Z.div_lt_upper_bound; lia.
Qed.

(** Beyond 55364 ticks the exact value no longer fits the [uint16_t] result
    of the envelope sketch. *)
Lemma envelope_ticksToMs_wraps (ticks : Z) :
  55364 < ticks ->
  EnvelopeSketch.ticksToMs ticks
  < round_half_up (ticks * 60000) (EnvelopeSketch.BPM * EnvelopeSketch.TICKS_PER_BEAT).
Proof.
  intros H. unfold EnvelopeSketch.ticksToMs, ticksToMs_body.
  match goal with |- u16 ?x < _ => pose proof (u16_range x) end.
  assert (2 ^ 16 <= round_half_up (ticks * 60000)
                      (EnvelopeSketch.BPM * EnvelopeSketch.TICKS_PER_BEAT)).
  { unfold round_half_up, EnvelopeSketch.BPM, EnvelopeSketch.TICKS_PER_BEAT.
    apply Z.div_le_lower_bound; lia. }
  lia.
Qed.

(** At any tempo the conversion is monotonic up to a tick count whose
    conversion wraps neither in 32 nor in 16 bits, and 0 ticks are 0 ms. *)
Lemma ticksToMs_body_monotonic (bpm tpb t1 t2 : Z) :
  0 < bpm * tpb < 2 ^ 32 ->
  0 <= t1 -> t1 <= t2 ->
  t2 * 60000 + bpm * tpb / 2 < 2 ^ 32 ->
  round_half_up (t2 * 60000) (bpm * tpb) < 2 ^ 16 ->
  ticksToMs_body bpm tpb t1 <= ticksToMs_body bpm tpb t2
  /\ ticksToMs_body bpm tpb 0 = 0.
Proof.
  intros Hden H1 H12 Hnum Hres.
  assert (Hmono : round_half_up (t1 * 60000) (bpm * tpb)
                  <= round_half_up (t2 * 60000) (bpm * tpb))
    by (apply round_half_up_mono; lia).
  split.
  - rewrite !ticksToMs_body_rounds by lia. exact Hmono.
  - unfold ticksToMs_body. cbn [Z.mul].
    rewrite (u32_small (bpm * tpb)) by lia.
    change (u32 0) with 0. rewrite Z.add_0_l.
    assert (0 <= bpm * tpb / 2 < bpm * tpb)
      by (split; [apply Z.div_pos | apply Z.div_lt_upper_bound]; lia).
    rewrite u32_small by lia. rewrite Z.div_small by lia. reflexivity.
Qed.

(** C6 (as amended): whenever the rounded value fits the [uint16_t] result
    (up to 55364 ticks at the 132 BPM of the envelope sketch, every
    non-negative [int16_t] at the 120 BPM of the plain sketch), [ticksToMs]
    is [ticks * 60000 / (bpm * ticksPerBeat)] rounded to nearest, halves up;
    at 120 BPM and 384 ticks per beat, 384 ticks are 500 ms. *)
Theorem ticksToMs_rounds_when_fits (ticks : Z) :
  0 <= ticks <= 55364 ->
  EnvelopeSketch.ticksToMs ticks
  = round_half_up (ticks * 60000) (EnvelopeSketch.BPM * EnvelopeSketch.TICKS_PER_BEAT)
  /\ (ticks <= 32767 ->
      PlainSketch.ticksToMs ticks
      = round_half_up (ticks * 60000) (PlainSketch.BPM * PlainSketch.TICKS_PER_BEAT))
  /\ PlainSketch.ticksToMs 384 = 500.
Proof.
  intros H. split; [|split].
  - now apply envelope_ticksToMs_rounds.
  - intros H'. apply plain_ticksToMs_rounds. lia.
  - reflexivity.
Qed.

Lemma ticksToMs_rounds_when_fits_witness :
  EnvelopeSketch.ticksToMs 15360 = 18182
  /\ PlainSketch.ticksToMs 15360 = 20000
  /\ PlainSketch.ticksToMs 384 = 500.
Proof.
  destruct (ticksToMs_rounds_when_fits 15360) as (He & Hp & H384); [lia|].
  split; [exact He|]. split; [apply Hp; lia | exact H384].
Defined.

(** C6, as stated, fails: the longest [uint16_t] tick count is 77575 ms
    when rounded exactly, and the envelope sketch returns 12039. *)
Lemma ticksToMs_rounds_counterexample :
  is_u16 65535
  /\ round_half_up (65535 * 60000)
       (EnvelopeSketch.BPM * EnvelopeSketch.TICKS_PER_BEAT) = 77575
  /\ EnvelopeSketch.ticksToMs 65535 = 12039.
Proof. repeat split; try reflexivity; unfold is_u16; lia. Qed.

(** C7 (as amended): [ticksToMs] of the envelope sketch is monotonic on
    the tick counts whose result fits 16 bits (up to 55364), and maps 0 to 0. *)
Theorem ticksToMs_monotonic_when_fits (ticks1 ticks2 : Z) :
  0 <= ticks1 -> ticks1 <= ticks2 -> ticks2 <= 55364 ->
  EnvelopeSketch.ticksToMs ticks1 <= EnvelopeSketch.ticksToMs ticks2
  /\ EnvelopeSketch.ticksToMs 0 = 0.
Proof.
  intros H0 H12 H2. split; [|reflexivity].
  rewrite !envelope_ticksToMs_rounds by lia.
  apply round_half_up_mono;
    unfold EnvelopeSketch.BPM, EnvelopeSketch.TICKS_PER_BEAT; lia.
Qed.

Lemma ticksToMs_monotonic_when_fits_witness :
  EnvelopeSketch.ticksToMs 96 <= EnvelopeSketch.ticksToMs 192
  /\ EnvelopeSketch.ticksToMs 0 = 0.
Proof.
  apply (ticksToMs_monotonic_when_fits 96 192); lia.
Defined.

(** C7, as stated, fails: one tick more than 55364 and the result falls
    from 65535 to 0. *)
Lemma ticksToMs_monotonic_counterexample :
  is_u16 55364 /\ is_u16 55365 /\ 55364 <= 55365
  /\ EnvelopeSketch.ticksToMs 55364 = 65535
  /\ EnvelopeSketch.ticksToMs 55365 = 0
  /\ EnvelopeSketch.ticksToMs 55365 < EnvelopeSketch.ticksToMs 55364.
Proof. unfold is_u16. repeat split; try reflexivity; lia. Qed.

(** ** The envelope of a note *)

Section Envelope.
Import EnvelopeSketch.

Variable cfg : envelope_config.
Hypothesis cfg_typed : config_typed cfg.

Lemma clampedMs_range (durMs : Z) :
  is_u16 (fst (clampedMs cfg durMs)) /\ is_u16 (snd (clampedMs cfg durMs)).
Proof.
  destruct cfg_typed as (_ & _ & _ & Hamin & Hamax & Hrmin & Hrmax).
  unfold clampedMs, is_u16 in *. cbn [fst snd].
  pose proof (u16_range (u32 (durMs * ATTACK_PCT cfg) / 100)).
  pose proof (u16_range (u32 (durMs * RELEASE_PCT cfg) / 100)).
  split.
  - destruct (_ <? ATTACK_MIN_MS cfg);
      match goal with |- context [?a <? ?b] => destruct (a <? b) end; lia.
  - destruct (_ <? RELEASE_MIN_MS cfg);
      match goal with |- context [?a <? ?b] => destruct (a <? b) end; lia.
Qed.

(** The clamping never leaves a value above its maximum. *)
Lemma clampedMs_below_max (durMs : Z) :
  fst (clampedMs cfg durMs) <= ATTACK_MAX_MS cfg
  /\ snd (clampedMs cfg durMs) <= RELEASE_MAX_MS cfg.
Proof.
  unfold clampedMs. cbn [fst snd]. split.
  - destruct (_ <? ATTACK_MIN_MS cfg);
      match goal with |- context [?a <? ?b] => destruct (Z.ltb_spec a b) end; lia.
  - destruct (_ <? RELEASE_MIN_MS cfg);
      match goal with |- context [?a <? ?b] => destruct (Z.ltb_spec a b) end; lia.
Qed.

(** What the shrinking step and the hold computation give, in terms of the
    clamped values, as long as their sum fits 16 bits. *)
Lemma envelopeMs_no_wrap (durMs : Z) :
  is_u16 durMs ->
  fst (clampedMs cfg durMs) + snd (clampedMs cfg durMs) < 2 ^ 16 ->
  let a := fst (clampedMs cfg durMs) in
  let r := snd (clampedMs cfg durMs) in
  envelopeMs cfg durMs =
  if durMs <=? a + r
  then (Z.min a (durMs / 2),
        Z.min r (durMs - Z.min a (durMs / 2)),
        durMs - Z.min a (durMs / 2) - Z.min r (durMs - Z.min a (durMs / 2)))
  else (a, r, durMs - a - r).
Proof.
  intros Hd Hsum a r.
  destruct (clampedMs_range durMs) as [Ha Hr].
  fold a in Ha, Hsum. fold r in Hr, Hsum.
  unfold envelopeMs.
  destruct (clampedMs cfg durMs) as [a0 r0]. cbn [fst snd] in a, r.
  subst a r. unfold is_u16 in *.
  rewrite (u16_small (a0 + r0)) by lia.
  destruct (Z.leb_spec durMs (a0 + r0)) as [Hle | Hgt].
  - rewrite !min_spec.
    assert (0 <= durMs / 2 <= durMs) by (split; [apply Z.div_pos | apply Z.div_le_upper_bound]; lia).
    rewrite (u16_small (durMs - _)) by lia.
    rewrite (u16_small (_ + _)) by lia.
    destruct (Z.ltb_spec (Z.min a0 (durMs / 2)
                          + Z.min r0 (durMs - Z.min a0 (durMs / 2))) durMs).
    + rewrite u16_small by lia. reflexivity.
    + repeat f_equal. lia.
  - rewrite (u16_small (a0 + r0)) by lia.
    destruct (Z.ltb_spec (a0 + r0) durMs); [|lia].
    rewrite u16_small by lia. reflexivity.
Qed.

Lemma shrunk_sum_le (durMs : Z) :
  is_u16 durMs ->
  fst (clampedMs cfg durMs) + snd (clampedMs cfg durMs) < 2 ^ 16 ->
  attackMs cfg durMs + releaseMs cfg durMs <= durMs.
Proof.
  intros Hd Hsum. unfold attackMs, releaseMs.
  rewrite (envelopeMs_no_wrap durMs Hd Hsum).
  destruct (clampedMs_range durMs) as [Ha Hr].
  unfold is_u16 in *.
  assert (0 <= durMs / 2 <= durMs)
    by (split; [apply Z.div_pos | apply Z.div_le_upper_bound]; lia).
  destruct (Z.leb_spec durMs (fst (clampedMs cfg durMs) + snd (clampedMs cfg durMs)));
    cbn [fst snd]; lia.
Qed.

End Envelope.

Import EnvelopeSketch.

Lemma sketch_config_typed : config_typed sketch_config.
Proof. unfold config_typed, is_u8, is_u16. cbn. lia. Qed.

(** The maxima bound the clamped values, so constants whose maxima sum below
    [2^16] keep the 16-bit sum of attack and release from wrapping, and
    attack and release within the note. *)
Lemma envelope_fits_below_max (cfg : envelope_config) (durMs : Z) :
  config_typed cfg ->
  is_u16 durMs ->
  ATTACK_MAX_MS cfg + RELEASE_MAX_MS cfg < 2 ^ 16 ->
  attackMs cfg durMs + releaseMs cfg durMs <= durMs.
Proof.
  intros Hcfg Hd Hmax.
  assert (Hsum : fst (clampedMs cfg durMs) + snd (clampedMs cfg durMs) < 2 ^ 16)
    by (destruct (clampedMs_below_max cfg durMs); lia).
  now apply shrunk_sum_le.
Qed.

(** C2: with the envelope constants of the sketch, whatever the duration of
    the note, the attack and the release that [playToneWithEnvelope] ends
    with, after the percentages, the clamping and the shrinking of short
    notes, sum to at most the duration. *)
Theorem envelope_fits_duration (durMs : Z) :
  is_u16 durMs ->
  attackMs sketch_config durMs + releaseMs sketch_config durMs <= durMs.
Proof.
  intros Hd. apply envelope_fits_below_max;
    [exact sketch_config_typed | assumption | cbn; lia].
Qed.

(** A note of 15 ms, shorter than the two minima together, and the longest
    note there is. *)
Lemma envelope_fits_duration_witness :
  attackMs sketch_config 15 + releaseMs sketch_config 15 <= 15
  /\ attackMs sketch_config 65535 + releaseMs sketch_config 65535 <= 65535.
Proof.
  split.
  - apply (envelope_fits_duration 15). unfold is_u16. lia.
  - apply (envelope_fits_duration 65535). unfold is_u16. lia.
Defined.

(** C3 (as amended): a note no longer than the combined 10 ms and 12 ms minima
    has its attack capped at half the note and its release at what is left;
    the two then fill the note exactly and no hold remains.  At 15 ms this
    gives 7 ms and 8 ms. *)
Theorem short_note_envelope (durMs : Z) :
  0 <= durMs <= 22 ->
  attackMs sketch_config durMs = Z.min 10 (durMs / 2)
  /\ releaseMs sketch_config durMs = Z.min 12 (durMs - attackMs sketch_config durMs)
  /\ attackMs sketch_config durMs + releaseMs sketch_config durMs = durMs
  /\ holdMs sketch_config durMs = 0
  /\ envelopeMs sketch_config 15 = (7, 8, 0).
Proof.
  intros H.
  assert (Hc : durMs = 0 \/ durMs = 1 \/ durMs = 2 \/ durMs = 3 \/ durMs = 4
               \/ durMs = 5 \/ durMs = 6 \/ durMs = 7 \/ durMs = 8 \/ durMs = 9
               \/ durMs = 10 \/ durMs = 11 \/ durMs = 12 \/ durMs = 13
               \/ durMs = 14 \/ durMs = 15 \/ durMs = 16 \/ durMs = 17
               \/ durMs = 18 \/ durMs = 19 \/ durMs = 20 \/ durMs = 21
               \/ durMs = 22) by lia.
  repeat (destruct Hc as [-> | Hc]); try subst durMs;
    repeat split; reflexivity.
Qed.

Lemma short_note_envelope_witness :
  attackMs sketch_config 15 = Z.min 10 (15 / 2)
  /\ releaseMs sketch_config 15 = Z.min 12 (15 - attackMs sketch_config 15)
  /\ attackMs sketch_config 15 + releaseMs sketch_config 15 = 15
  /\ holdMs sketch_config 15 = 0
  /\ envelopeMs sketch_config 15 = (7, 8, 0).
Proof.
  apply (short_note_envelope 15). lia.
Defined.

(** C3, as stated, fails: at 15 ms the attack and release are 7 and 8, not
    in the ratio 10 : 12, and at 20 ms the attack keeps its full 10 ms while
    the release alone is cut, to 10 ms. *)
Lemma short_note_envelope_counterexample :
  attackMs sketch_config 15 = 7 /\ releaseMs sketch_config 15 = 8
  /\ attackMs sketch_config 15 * 12 <> releaseMs sketch_config 15 * 10
  /\ attackMs sketch_config 20 = ATTACK_MIN_MS sketch_config
  /\ releaseMs sketch_config 20 = 10.
Proof. repeat split; try reflexivity. cbn. lia. Qed.

(** ** Traces *)

Lemma elapsed_ms_app (t1 t2 : list action) :
  elapsed_ms (t1 ++ t2) = elapsed_ms t1 + elapsed_ms t2.
Proof.
  induction t1 as [|a t1 IH]; cbn; [reflexivity|].
  destruct a; rewrite IH; lia.
Qed.

Lemma tone_after_app (on : bool) (t1 t2 : list action) :
  tone_after on (t1 ++ t2) = tone_after (tone_after on t1) t2.
Proof.
  revert on. induction t1 as [|a t1 IH]; intros on; cbn; [reflexivity|].
  destruct a; apply IH.
Qed.

Lemma audible_ms_app (on : bool) (t1 t2 : list action) :
  audible_ms on (t1 ++ t2)
  = audible_ms on t1 + audible_ms (tone_after on t1) t2.
Proof.
  revert on. induction t1 as [|a t1 IH]; intros on; cbn; [reflexivity|].
  destruct a; rewrite IH; lia.
Qed.

Lemma enables_tone_app (t1 t2 : list action) :
  enables_tone (t1 ++ t2) = enables_tone t1 || enables_tone t2.
Proof. unfold enables_tone. apply existsb_app. Qed.

(** A trace that never enables the tone is inaudible once the tone is off. *)
Lemma silent_trace (tr : list action) :
  enables_tone tr = false ->
  audible_ms false tr = 0 /\ tone_after false tr = false.
Proof.
  induction tr as [|a tr IH]; cbn; [auto|].
  destruct a; cbn; intros H; try discriminate; destruct (IH H); split; lia || assumption.
Qed.

Lemma enables_tone_for_steps (body : Z -> list action) (n : nat) (s : Z) :
  (forall i, enables_tone (body i) = false) ->
  enables_tone (for_steps body s n) = false.
Proof.
  intros Hbody. revert s. induction n as [|n IH]; intros s; cbn; [reflexivity|].
  rewrite enables_tone_app, Hbody, IH. reflexivity.
Qed.

(** ** Gates *)

Section Gates.
Variable cfg : envelope_config.
Hypothesis period_typed : is_u8 (GATE_PERIOD_MS cfg).

(** The step count of a phase is [max(1, ms / gatePeriodMs)]. *)
Lemma gateSteps_max (ms : Z) :
  gateSteps cfg ms = Z.max 1 (ms / GATE_PERIOD_MS cfg).
Proof. unfold gateSteps. destruct (Z.ltb_spec 0 (ms / GATE_PERIOD_MS cfg)); lia. Qed.

(** [onMs] is [gatePeriodMs * level / 255], and at most the period. *)
Lemma gateOnMs_exact (lvl : Z) :
  is_u8 lvl ->
  gateOnMs cfg lvl = GATE_PERIOD_MS cfg * lvl / 255
  /\ 0 <= gateOnMs cfg lvl <= GATE_PERIOD_MS cfg.
Proof.
  intros Hl. unfold gateOnMs, is_u8 in *.
  assert (0 <= GATE_PERIOD_MS cfg * lvl <= 255 * GATE_PERIOD_MS cfg) by nia.
  assert (0 <= GATE_PERIOD_MS cfg * lvl / 255 <= GATE_PERIOD_MS cfg).
  { split; [apply Z.div_pos; lia | apply Z.div_le_upper_bound; lia]. }
  rewrite u32_small by lia. rewrite u16_small by lia. lia.
Qed.

(** A gate lasts one period, sounds for [onMs] of it, and leaves the tone
    off. *)
Lemma gate_timing (on : bool) (freq lvl : Z) :
  is_u8 lvl ->
  elapsed_ms (gate cfg freq lvl) = GATE_PERIOD_MS cfg
  /\ audible_ms on (gate cfg freq lvl) = GATE_PERIOD_MS cfg * lvl / 255
  /\ tone_after on (gate cfg freq lvl) = false.
Proof.
  intros Hl. destruct (gateOnMs_exact lvl Hl) as [Hon Hrange].
  unfold gate. rewrite <- Hon. unfold is_u8 in *.
  rewrite (u16_small (_ - _)) by lia.
  destruct (Z.ltb_spec 0 (gateOnMs cfg lvl));
    destruct (Z.ltb_spec 0 (GATE_PERIOD_MS cfg - gateOnMs cfg lvl));
    cbn; repeat split; lia.
Qed.

(** A level that rounds to no on-time gives a gate without any tone. *)
Lemma gate_silent (freq lvl : Z) :
  gateOnMs cfg lvl = 0 -> enables_tone (gate cfg freq lvl) = false.
Proof.
  intros H. unfold gate. rewrite H. cbn.
  destruct (0 <? u16 (GATE_PERIOD_MS cfg - 0)); reflexivity.
Qed.

End Gates.

(** On a rising ramp nothing wraps: the level of gate [s] is the linear
    interpolation of the specification, and stays between the two ends. *)
Lemma gateLevel_rising (levelStart levelEnd steps s : Z) :
  0 <= levelStart <= levelEnd -> levelEnd < 2 ^ 8 ->
  0 <= s < steps -> steps < 2 ^ 16 ->
  gateLevel levelStart levelEnd steps s = linear_level levelStart levelEnd steps s
  /\ levelStart <= gateLevel levelStart levelEnd steps s <= levelEnd.
Proof.
  intros Hl He Hs Hsteps. unfold gateLevel, linear_level.
  replace (if steps - 1 =? 0 then 1 else steps - 1) with (Z.max 1 (steps - 1))
    by (destruct (Z.eqb_spec (steps - 1) 0); lia).
  set (d := Z.max 1 (steps - 1)).
  assert (Hd : 0 < d) by lia.
  assert (Hprod : 0 <= (levelEnd - levelStart) * s <= (levelEnd - levelStart) * d) by nia.
  assert (Hq : 0 <= (levelEnd - levelStart) * s / d <= levelEnd - levelStart).
  { split; [apply Z.div_pos; lia | apply Z.div_le_upper_bound; [lia|nia]]. }
  rewrite Z.quot_div_nonneg by lia.
  rewrite (u32_small (levelEnd - levelStart)) by lia.
  rewrite (u32_small (_ * s)) by nia.
  rewrite u32_small by lia.
  rewrite u8_small by lia. lia.
Qed.

(** The on-time of the sketch's 3 ms gate is 0 exactly below level 85. *)
Lemma gateOnMs_zero_below_85 (lvl : Z) :
  is_u8 lvl -> (gateOnMs sketch_config lvl = 0 <-> lvl < 85).
Proof.
  intros Hl.
  destruct (gateOnMs_exact sketch_config ltac:(cbn; unfold is_u8; lia) lvl Hl) as [-> _].
  cbn [GATE_PERIOD_MS sketch_config]. unfold is_u8 in Hl.
  split; intros H.
  - destruct (Z.lt_ge_cases lvl 85) as [|Hge]; [assumption|].
    assert (1 <= 3 * lvl / 255) by (apply Z.div_le_lower_bound; lia). lia.
  - apply Z.div_small. lia.
Qed.

(** The attack of a note requested below level 85 never enables the tone. *)
Lemma attack_silent_below_85 (freq ms volLevel : Z) :
  is_u16 ms -> 0 <= volLevel < 85 ->
  enables_tone (gateFor sketch_config freq ms 0 volLevel) = false.
Proof.
  intros Hms Hv. unfold gateFor.
  destruct (ms =? 0); [reflexivity|].
  rewrite gateSteps_max. cbn [GATE_PERIOD_MS sketch_config].
  assert (Hsteps : 1 <= Z.max 1 (ms / 3) < 2 ^ 16).
  { unfold is_u16 in Hms.
    assert (ms / 3 <= ms) by (apply Z.div_le_upper_bound; lia). lia. }
  set (steps := Z.max 1 (ms / 3)) in *.
  assert (Hbody : forall n s, 0 <= s -> s + Z.of_nat n <= steps ->
            enables_tone (for_steps (fun s => gate sketch_config freq
                                       (gateLevel 0 volLevel steps s)) s n) = false).
  { induction n as [|n IH]; intros s Hs Hn; cbn [for_steps]; [reflexivity|].
    rewrite enables_tone_app, IH by lia.
    rewrite gate_silent; [reflexivity|].
    destruct (gateLevel_rising 0 volLevel steps s) as [_ Hr]; try lia.
    apply gateOnMs_zero_below_85; unfold is_u8; lia. }
  apply Hbody; lia.
Qed.

(** So does its hold, however many gates it has. *)
Lemma hold_silent_below_85 (freq volLevel : Z) (n : nat) :
  0 <= volLevel < 85 ->
  enables_tone (for_steps (fun _ => gate sketch_config freq volLevel) 0 n) = false.
Proof.
  intros Hv. apply enables_tone_for_steps. intros _.
  apply gate_silent. apply gateOnMs_zero_below_85; unfold is_u8; lia.
Qed.

(** ** Falling ramps

    With [levelEnd < levelStart] the difference converts to a [uint32_t] near
    [2^32], and the quotient by [steps - 1] carries a share of that [2^32]
    into the level. *)

(** X19: where a ramp that falls to 0 ends: at [2^32 / (steps - 1)] modulo 256,
    whatever level it starts from; for instance at 85 with 4 gates. *)
Lemma falling_ramp_last_level (levelStart steps : Z) :
  0 < levelStart < 2 ^ 8 -> 2 <= steps < 2 ^ 16 ->
  gateLevel levelStart 0 steps (steps - 1) = (2 ^ 32 / (steps - 1)) mod 2 ^ 8.
Proof.
  intros Hl Hs. unfold gateLevel.
  destruct (Z.eqb_spec (steps - 1) 0) as [|_]; [lia|].
  set (d := steps - 1) in *.
  assert (Hd : 0 < d < 2 ^ 16) by lia.
  assert (Hwrap : u32 (0 - levelStart) = 2 ^ 32 - levelStart).
  { unfold u32. replace (0 - levelStart) with (2 ^ 32 - levelStart + (-1) * 2 ^ 32) by lia.
    rewrite Z.mod_add by lia. apply Z.mod_small. lia. }
  rewrite Hwrap.
  assert (Hprod : u32 ((2 ^ 32 - levelStart) * d) = 2 ^ 32 - levelStart * d).
  { unfold u32.
    replace ((2 ^ 32 - levelStart) * d)
      with (2 ^ 32 - levelStart * d + (d - 1) * 2 ^ 32) by lia.
    rewrite Z.mod_add by lia. apply Z.mod_small. nia. }
  rewrite Hprod.
  replace (2 ^ 32 - levelStart * d) with (2 ^ 32 + (- levelStart) * d) by lia.
  rewrite Z.div_add by lia.
  replace (levelStart + (2 ^ 32 / d + - levelStart)) with (2 ^ 32 / d) by lia.
  apply u8_u32.
Qed.

(** C4 (the code at a failing input): a release of 12 ms from level 255 has
    the 4 gates the step count promises, but their levels are 255, 255, 170,
    85 where the linear interpolation gives 255, 170, 85, 0; the gates sound
    for 3, 3, 2 and 1 ms. *)
Theorem gateFor_falling_ramp_levels :
  gateSteps sketch_config 12 = Z.max 1 (12 / 3)
  /\ List.map (gateLevel 255 0 4) [0; 1; 2; 3] = [255; 255; 170; 85]
  /\ List.map (linear_level 255 0 4) [0; 1; 2; 3] = [255; 170; 85; 0]
  /\ gateFor sketch_config 440 12 255 0
     = [Tone 9 440; Delay 3; NoTone 9;
        Tone 9 440; Delay 3; NoTone 9;
        Tone 9 440; Delay 2; NoTone 9; Delay 1;
        Tone 9 440; Delay 1; NoTone 9; Delay 2].
Proof. repeat split; reflexivity. Qed.

(** What [playToneWithEnvelope] plays for a sounding note, phase by phase. *)
Lemma playToneWithEnvelope_phases (ms : Z) (cfg : envelope_config)
  (freq durMs volLevel : Z) :
  freq <> 0 -> durMs <> 0 ->
  playToneWithEnvelope ms cfg freq durMs volLevel
  = gateFor cfg freq (attackMs cfg durMs) 0 volLevel
    ++ (if 0 <? holdMs cfg durMs
        then for_steps (fun _ => gate cfg freq volLevel)
                       0 (Z.to_nat (gateSteps cfg ms))
        else [])
    ++ gateFor cfg freq (releaseMs cfg durMs) volLevel 0
    ++ [NoTone BUZZ_PIN].
Proof.
  intros Hf Hd. unfold playToneWithEnvelope, attackMs, releaseMs, holdMs.
  destruct (Z.eqb_spec freq 0); [contradiction|].
  destruct (Z.eqb_spec durMs 0); [contradiction|].
  cbn [orb]. destruct (envelopeMs cfg durMs) as [[a r] h]. reflexivity.
Qed.

(** C1 (the code at a failing input): a 100 ms note at level 255 gets a 10 ms
    attack, a hold and a 12 ms release, but the release runs through the
    levels 255, 255, 170, 85: it ends at 85, not at 0, and sounds for 9 ms
    where a linear ramp to 0 sounds for 6. *)
Theorem playToneWithEnvelope_release_not_linear (ms : Z) :
  envelopeMs sketch_config 100 = (10, 12, 78)
  /\ playToneWithEnvelope ms sketch_config 440 100 255
     = gateFor sketch_config 440 10 0 255
       ++ for_steps (fun _ => gate sketch_config 440 255)
                    0 (Z.to_nat (gateSteps sketch_config ms))
       ++ gateFor sketch_config 440 12 255 0
       ++ [NoTone BUZZ_PIN]
  /\ List.map (gateLevel 0 255 3) [0; 1; 2] = [0; 127; 255]
  /\ List.map (gateLevel 255 0 4) [0; 1; 2; 3] = [255; 255; 170; 85]
  /\ audible_ms false (gateFor sketch_config 440 12 255 0) = 9
  /\ audible_ms false
       (for_steps (fun s => gate sketch_config 440 (linear_level 255 0 4 s)) 0 4)
     = 6.
Proof.
  split; [reflexivity|]. split.
  - rewrite playToneWithEnvelope_phases by lia. reflexivity.
  - repeat split; reflexivity.
Qed.

(** C10 (the code at a failing input): the volume pot at 0 asks for level 10,
    whose on-time is 0; yet a 50 ms note at that level has a 12 ms release
    whose gates run through the levels 10, 92, 88, 85, and the last three
    sound for 1 ms each. *)
Theorem quiet_note_release_sounds (ms : Z) :
  volPotToLevel 0 = 10
  /\ gateOnMs sketch_config 10 = 0
  /\ envelopeMs sketch_config 50 = (10, 12, 28)
  /\ List.map (gateLevel 10 0 4) [0; 1; 2; 3] = [10; 92; 88; 85]
  /\ enables_tone (playToneWithEnvelope ms sketch_config 440 50 10) = true
  /\ audible_ms false (playToneWithEnvelope ms sketch_config 440 50 10) = 3.
Proof.
  do 4 (split; [reflexivity|]).
  rewrite playToneWithEnvelope_phases by lia.
  change (attackMs sketch_config 50) with 10.
  change (holdMs sketch_config 50) with 28.
  change (releaseMs sketch_config 50) with 12.
  change (0 <? 28) with true. cbv iota.
  pose proof (attack_silent_below_85 440 10 10
                ltac:(unfold is_u16; lia) ltac:(lia)) as Ha.
  pose proof (hold_silent_below_85 440 10
                (Z.to_nat (gateSteps sketch_config ms)) ltac:(lia)) as Hh.
  destruct (silent_trace _ Ha) as [Ha1 Ha2].
  destruct (silent_trace _ Hh) as [Hh1 Hh2].
  split.
  - rewrite !enables_tone_app, Ha, Hh. reflexivity.
  - rewrite audible_ms_app, Ha1, Ha2.
    rewrite audible_ms_app, Hh1, Hh2. reflexivity.
Qed.

(** ** Events *)

Lemma ticksToMs_range (ticks : Z) : is_u16 (ticksToMs ticks).
Proof. unfold ticksToMs, ticksToMs_body. apply u16_range. Qed.

(** The gap is taken off exactly when the duration exceeds it by more than
    5 ms; either way sounding time and gap add up to the duration. *)
Lemma noteGap_cases (durMs : Z) :
  is_u16 durMs ->
  (MIN_NOTE_MS_GAP + 5 < durMs ->
   noteGap durMs = MIN_NOTE_MS_GAP /\ notePlayMs durMs = durMs - MIN_NOTE_MS_GAP)
  /\ (durMs <= MIN_NOTE_MS_GAP + 5 -> noteGap durMs = 0 /\ notePlayMs durMs = durMs)
  /\ notePlayMs durMs + noteGap durMs = durMs.
Proof.
  intros Hd. unfold notePlayMs, noteGap, MIN_NOTE_MS_GAP, is_u16 in *.
  change (u16 (8 + 5)) with 13.
  destruct (Z.leb_spec durMs 13); cbn [Z.ltb Z.compare].
  - repeat split; lia.
  - rewrite u16_small by lia. repeat split; lia.
Qed.

(** C8 (as amended): a non-rest event plays [playToneWithEnvelope] for its
    sounding duration and then its gap; when the converted duration exceeds
    the gap by more than 5 ms (13 ms in all) the gap is the 8 ms constant and
    is taken off the sounding duration, otherwise there is no gap and the
    note sounds for the whole duration; both add up to the duration. *)
Theorem event_gap_articulation (ms : Z) (powf : float -> float -> float)
  (note ticks volPot pitPot : Z) :
  0 <= note ->
  let durMs := ticksToMs ticks in
  (exists freq,
      playEvent ms powf note ticks volPot pitPot
      = playToneWithEnvelope ms sketch_config freq (notePlayMs durMs)
                             (volPotToLevel volPot)
        ++ (if 0 <? noteGap durMs
            then [NoTone BUZZ_PIN; Delay (noteGap durMs)] else []))
  /\ (MIN_NOTE_MS_GAP + 5 < durMs ->
      noteGap durMs = MIN_NOTE_MS_GAP /\ notePlayMs durMs = durMs - MIN_NOTE_MS_GAP)
  /\ (durMs <= MIN_NOTE_MS_GAP + 5 -> noteGap durMs = 0 /\ notePlayMs durMs = durMs)
  /\ notePlayMs durMs + noteGap durMs = durMs.
Proof.
  intros Hn durMs. split.
  - unfold playEvent. fold durMs.
    destruct (Z.ltb_spec note 0); [lia|].
    eexists. reflexivity.
  - apply noteGap_cases. apply ticksToMs_range.
Qed.

Lemma event_gap_articulation_witness :
  ticksToMs 384 = 455
  /\ playEvent 0 powf_whole 69 384 512 512
     = playToneWithEnvelope 0 sketch_config 440 447 (volPotToLevel 512)
       ++ [NoTone BUZZ_PIN; Delay 8]
  /\ noteGap (ticksToMs 384) = 8
  /\ notePlayMs (ticksToMs 384) = 447
  /\ notePlayMs (ticksToMs 8) = 9 /\ noteGap (ticksToMs 8) = 0.
Proof.
  destruct (event_gap_articulation 0 powf_whole 69 384 512 512)
    as (_ & Hlong & _ & _); [lia|].
  destruct (event_gap_articulation 0 powf_whole 69 8 512 512)
    as (_ & _ & Hshort & _); [lia|].
  destruct Hlong as [Hgap Hplay]; [vm_compute; reflexivity|].
  destruct Hshort as [Hgap' Hplay']; [vm_compute; discriminate|].
  split; [reflexivity|]. split; [reflexivity|].
  split; [exact Hgap|]. split; [exact Hplay|]. split; [exact Hplay' | exact Hgap'].
Defined.

(** C8, as stated, fails: 8 ticks are 9 ms, longer than the 8 ms gap, and the
    note still sounds for all 9 ms with no gap after it. *)
Lemma event_gap_articulation_counterexample :
  ticksToMs 8 = 9 /\ MIN_NOTE_MS_GAP < ticksToMs 8
  /\ notePlayMs (ticksToMs 8) = 9 /\ noteGap (ticksToMs 8) = 0
  /\ playEvent 0 powf_whole 69 8 512 512
     = playToneWithEnvelope 0 sketch_config 440 9 (volPotToLevel 512).
Proof. repeat split; reflexivity. Qed.

(** ** Note frequencies *)

(** A float above 4000 is not below 60. *)
Lemma above_4000_not_below_60 (f : float) :
  ltb (of_Z 4000) f = true -> ltb f (of_Z 60) = false.
Proof.
  unfold ltb, SFltb.
  change (of_Z 4000) with (S754_finite false 16384000 (-12)).
  change (of_Z 60) with (S754_finite false 15728640 (-18)).
  destruct f as [s | s | | s m e]; cbv beta iota delta [SFcompare].
  - discriminate.
  - destruct s; [discriminate | reflexivity].
  - discriminate.
  - destruct s; [discriminate|].
    destruct (Z.compare_spec (-12) e) as [He | He | He]; try discriminate.
    + subst e. intros _. reflexivity.
    + intros _. destruct (Z.compare_spec e (-18)) as [He' | He' | He'];
        [lia | lia | reflexivity].
Qed.

Section NoteFrequencies.

Variable powf : float -> float -> float.

(** The C standard has [pow(x, 0)] return 1 for every [x]. *)
Hypothesis powf_zero : powf (of_Z 2) zero = of_Z 1.

Lemma noteFrequency_69 : noteFrequency powf 69 = of_Z 440.
Proof.
  unfold noteFrequency.
  change (div (sub (of_Z 69) (of_Z 69)) (of_Z 12)) with zero.
  rewrite powf_zero. reflexivity.
Qed.

Lemma midiNoteToFreq_69 : midiNoteToFreq powf 69 = 440.
Proof. unfold midiNoteToFreq. rewrite noteFrequency_69. reflexivity. Qed.

End NoteFrequencies.

(** The number of binary digits of a positive number brackets it between
    two powers of two, and is the only number to do so. *)
Lemma digits2_pos_bounds (p : positive) :
  2 ^ (Zpos (digits2_pos p) - 1) <= Zpos p < 2 ^ Zpos (digits2_pos p).
Proof.
  induction p as [p IH | p IH |]; cbn [digits2_pos].
  - rewrite Pos2Z.inj_succ. replace (Z.succ (Z.pos (digits2_pos p)) - 1) with (Z.pos (digits2_pos p) - 1 + 1) by lia.
    rewrite Z.pow_succ_r by lia.
    assert (0 <= Z.pos (digits2_pos p) - 1) by lia.
    rewrite Z.pow_add_r by lia. lia.
  - rewrite Pos2Z.inj_succ. replace (Z.succ (Z.pos (digits2_pos p)) - 1) with (Z.pos (digits2_pos p) - 1 + 1) by lia.
    rewrite Z.pow_succ_r by lia.
    assert (0 <= Z.pos (digits2_pos p) - 1) by lia.
    rewrite Z.pow_add_r by lia. lia.
  - cbn. lia.
Qed.

Lemma digits2_pos_unique (p : positive) (k : Z) :
  2 ^ (k - 1) <= Zpos p < 2 ^ k -> Zpos (digits2_pos p) = k.
Proof.
  intros [Hlo Hhi]. pose proof (digits2_pos_bounds p) as [Dlo Dhi].
  assert (0 < k).
  { destruct (Z.lt_ge_cases 0 k); [assumption|].
    assert (2 ^ k <= 1).
    { destruct (Z.eq_dec k 0) as [-> | Hk]; [cbn; lia|].
      rewrite Z.pow_neg_r by lia. lia. }
    lia. }
  destruct (Z.lt_trichotomy (Zpos (digits2_pos p)) k) as [Hlt | [Heq | Hgt]]; [|assumption|].
  - assert (2 ^ Zpos (digits2_pos p) <= 2 ^ (k - 1)) by (apply Z.pow_le_mono_r; lia). lia.
  - assert (2 ^ k <= 2 ^ (Zpos (digits2_pos p) - 1)) by (apply Z.pow_le_mono_r; lia). lia.
Qed.

(** Shifting a mantissa right by [p] bits divides it by [2^p]. *)
Lemma shr_1_m (r : shr_record) : 0 <= shr_m r -> shr_m (shr_1 r) = shr_m r / 2.
Proof.
  destruct r as [m b s]. cbn [shr_m]. intros Hm. unfold shr_1.
  destruct m as [|[p|p|]|p]; cbn [shr_m]; try lia.
  - reflexivity.
  - apply Z.div_unique with 1; lia.
  - apply Z.div_unique with 0; lia.
  - reflexivity.
Qed.

Lemma shr_m_iter (p : positive) (r : shr_record) :
  0 <= shr_m r -> shr_m (iter_pos shr_1 p r) = shr_m r / 2 ^ Zpos p.
Proof.
  revert r. induction p as [p IH | p IH |]; intros r Hr; cbn [iter_pos].
  - assert (H1 : 0 <= shr_m (shr_1 r)) by (rewrite shr_1_m by lia; apply Z.div_pos; lia).
    assert (H2 : 0 <= shr_m (iter_pos shr_1 p (shr_1 r))) by (rewrite IH by lia; apply Z.div_pos; lia).
    rewrite IH, IH, shr_1_m by lia.
    rewrite !Z.div_div by lia. f_equal.
    rewrite Pos2Z.inj_xI. rewrite <- Z.pow_add_r by lia. rewrite <- Z.pow_succ_r by lia. f_equal. lia.
  - assert (H2 : 0 <= shr_m (iter_pos shr_1 p r)) by (rewrite IH by lia; apply Z.div_pos; lia).
    rewrite IH, IH by lia. rewrite Z.div_div by lia. f_equal.
    rewrite Pos2Z.inj_xO. rewrite <- Z.pow_add_r by lia. f_equal. lia.
  - rewrite shr_1_m by lia. reflexivity.
Qed.

(** What the rounding of a product does with a mantissa of [n + 24], of 24
    and of 25 bits: drop [n] bits, nothing, and one bit. *)
Lemma shr_fexp_wide (M n : positive) (E : Z) (l : location) :
  Zpos (digits2_pos M) = Zpos n + 24 ->
  3 - emax - prec <= Zpos n + E ->
  exists r, shr_fexp prec emax (Zpos M) E l = (r, E + Zpos n)
            /\ shr_m r = Zpos M / 2 ^ Zpos n.
Proof.
  intros Hd Hmin. unfold shr_fexp, Zdigits2. rewrite Hd.
  unfold fexp, emin.
  replace (Z.max (Zpos n + 24 + E - prec) (3 - emax - prec) - E) with (Zpos n)
    by (unfold prec, emax in *; lia).
  cbn [shr]. eexists. split; [reflexivity|].
  rewrite shr_m_iter; destruct l as [|[| |]]; cbn [shr_record_of_loc shr_m]; lia || reflexivity.
Qed.

Lemma shr_fexp_fits (m : positive) (e : Z) :
  Zpos (digits2_pos m) = 24 -> 3 - emax - prec <= e ->
  shr_fexp prec emax (Zpos m) e loc_Exact
  = (shr_record_of_loc (Zpos m) loc_Exact, e).
Proof.
  intros Hd Hmin. unfold shr_fexp, Zdigits2. rewrite Hd.
  unfold fexp, emin.
  replace (Z.max (24 + e - prec) (3 - emax - prec) - e) with 0
    by (unfold prec, emax in *; lia).
  reflexivity.
Qed.

Lemma shr_fexp_carry (e : Z) :
  3 - emax - prec <= e ->
  shr_fexp prec emax (2 ^ 24) e loc_Exact
  = ({| shr_m := 2 ^ 23; shr_r := false; shr_s := false |}, e + 1).
Proof.
  intros Hmin. unfold shr_fexp.
  change (Zdigits2 (2 ^ 24)) with 25.
  unfold fexp, emin.
  replace (Z.max (25 + e - prec) (3 - emax - prec) - e) with 1
    by (unfold prec, emax in *; lia).
  reflexivity.
Qed.

(** Rounding a positive mantissa [M] of [n + 24] bits to a float: the
    mantissa is [M / 2^n] or one more, and when that one more needs a 25th
    bit the exponent goes up instead. *)
Lemma round_wide (M n : positive) (E : Z) :
  Zpos (digits2_pos M) = Zpos n + 24 ->
  3 - emax - prec <= Zpos n + E -> Zpos n + E + 1 <= emax - prec ->
  exists m'' e'',
    binary_round_aux prec emax false (Zpos M) E loc_Exact = S754_finite false m'' e''
    /\ ((e'' = E + Zpos n
         /\ Zpos M / 2 ^ Zpos n <= Zpos m'' <= Zpos M / 2 ^ Zpos n + 1
         /\ 2 ^ 23 <= Zpos m'' < 2 ^ 24)
        \/ (e'' = E + Zpos n + 1 /\ Zpos m'' = 2 ^ 23
            /\ Zpos M / 2 ^ Zpos n + 1 = 2 ^ 24)).
Proof.
  intros Hd Hmin Hmax.
  pose proof (digits2_pos_bounds M) as HM. rewrite Hd in HM.
  replace (Zpos n + 24 - 1) with (23 + Zpos n) in HM by lia.
  replace (Zpos n + 24) with (24 + Zpos n) in HM by lia.
  rewrite !Z.pow_add_r in HM by lia.
  assert (Hp : 0 < 2 ^ Zpos n) by (apply Z.pow_pos_nonneg; lia).
  unfold binary_round_aux.
  destruct (shr_fexp_wide M n E loc_Exact Hd Hmin) as (r1 & -> & Hq).
  set (q := Zpos M / 2 ^ Zpos n) in *.
  assert (Hqr : 2 ^ 23 <= q < 2 ^ 24).
  { subst q. split; [apply Z.div_le_lower_bound; lia | apply Z.div_lt_upper_bound; lia]. }
  assert (Hm' : round_nearest_even (shr_m r1) (loc_of_shr_record r1) = q
                \/ round_nearest_even (shr_m r1) (loc_of_shr_record r1) = q + 1).
  { rewrite Hq. unfold round_nearest_even.
    destruct (loc_of_shr_record r1) as [|[| |]]; auto. destruct (Z.even q); auto. }
  set (m' := round_nearest_even (shr_m r1) (loc_of_shr_record r1)) in *.
  assert (Hcase : 2 ^ 23 <= m' < 2 ^ 24 \/ (m' = 2 ^ 24 /\ q + 1 = 2 ^ 24)) by lia.
  clearbody m'.
  destruct Hcase as [Hfit | [-> Hcarry]].
  - destruct m' as [|m'|m']; try lia.
    rewrite shr_fexp_fits; [| apply digits2_pos_unique; lia | lia].
    cbn [shr_record_of_loc shr_m].
    destruct (Z.leb_spec (E + Zpos n) (emax - prec)); [|lia].
    exists m', (E + Zpos n). split; [reflexivity|]. left. lia.
  - rewrite shr_fexp_carry by lia. cbn [shr_m].
    destruct (Z.leb_spec (E + Zpos n + 1) (emax - prec)); [|lia].
    exists (Z.to_pos (2 ^ 23)), (E + Zpos n + 1). split; [reflexivity|]. right.
    repeat split; try lia.
Qed.

(** A finite float has a mantissa of at most 24 bits, and of exactly 24
    bits unless it is subnormal. *)
Lemma bounded_mantissa (m : positive) (e : Z) :
  bounded prec emax m e = true ->
  -149 <= e /\ Zpos m < 2 ^ 24 /\ (-149 < e -> 2 ^ 23 <= Zpos m).
Proof.
  unfold bounded, canonical_mantissa, fexp, emin, prec, emax.
  intros H. apply andb_prop in H. destruct H as [H _].
  apply Z.eqb_eq in H.
  pose proof (digits2_pos_bounds m) as [Dlo Dhi].
  set (D := Zpos (digits2_pos m)) in *.
  assert (HD : 0 < D) by (subst D; lia).
  assert (Hle : D <= 24) by lia.
  assert (2 ^ D <= 2 ^ 24) by (apply Z.pow_le_mono_r; lia).
  split; [lia|]. split; [lia|].
  intros He. assert (D = 24) by lia. subst D.
  replace (2 ^ 23) with (2 ^ (Z.pos (digits2_pos m) - 1)) by (f_equal; lia). lia.
Qed.

(** The product of 440 and a float [m * 2^e] of full precision, as a float
    [m'' * 2^e'']. *)
Lemma mul_440 (m : positive) (e : Z) :
  2 ^ 23 <= Zpos m < 2 ^ 24 -> -100 <= e <= 60 ->
  let M := 14417920 * Zpos m in
  let n := if M <? 2 ^ 47 then 23 else 24 in
  exists m'' e'',
    mul (of_Z 440) (S754_finite false m e) = S754_finite false m'' e''
    /\ ((e'' = e - 15 + n
         /\ M / 2 ^ n <= Zpos m'' <= M / 2 ^ n + 1)
        \/ (e'' = e - 15 + n + 1 /\ Zpos m'' = 2 ^ 23 /\ M / 2 ^ n + 1 = 2 ^ 24)).
Proof.
  intros Hm He M n.
  change (of_Z 440) with (S754_finite false 14417920 (-15)).
  unfold mul, SFmul. cbn [xorb].
  assert (HM : Zpos (14417920 * m) = M) by (subst M; lia).
  destruct (Z.ltb_spec M (2 ^ 47)) as [Hlt | Hge].
  - destruct (round_wide (14417920 * m) 23 (-15 + e)) as (m'' & e'' & Hr & Hc).
    + change (Zpos 23 + 24) with 47. apply digits2_pos_unique. lia.
    + unfold prec, emax. lia.
    + unfold prec, emax. lia.
    + exists m'', e''. split; [exact Hr|]. rewrite HM in Hc. subst n. lia.
  - destruct (round_wide (14417920 * m) 24 (-15 + e)) as (m'' & e'' & Hr & Hc).
    + change (Zpos 24 + 24) with 48. apply digits2_pos_unique. lia.
    + unfold prec, emax. lia.
    + unfold prec, emax. lia.
    + exists m'', e''. split; [exact Hr|]. rewrite HM in Hc. subst n. lia.
Qed.

(** Positive finite floats compare by exponent, then by mantissa. *)
Lemma ltb_finite (m1 m2 : positive) (e1 e2 : Z) :
  e1 < e2 \/ (e1 = e2 /\ Zpos m1 < Zpos m2) ->
  ltb (S754_finite false m1 e1) (S754_finite false m2 e2) = true.
Proof.
  intros H. unfold ltb, SFltb. cbv beta iota delta [SFcompare].
  destruct (Z.compare_spec e1 e2) as [He | He | He].
  - destruct H as [H | [_ H]]; [lia|].
    change (PosDef.Pos.compare_cont Eq m1 m2) with (Pos.compare m1 m2).
    apply Pos2Z.pos_lt_pos in H. rewrite (proj2 (Pos.compare_lt_iff m1 m2) H).
    reflexivity.
  - reflexivity.
  - lia.
Qed.

(** A float within one percent of [2^(k/12)], for the notes 0 to 34, is at
    most [0.1339], in terms of its mantissa and exponent. *)
Lemma within_1pct_low (x : float) (k : Z) :
  within_1pct x k = true -> -69 <= k <= -35 ->
  exists m e,
    x = S754_finite false m e
    /\ -29 <= e <= -26
    /\ 2 ^ 23 <= Zpos m < 2 ^ 24
    /\ (e = -26 -> Zpos m <= 8985876).
Proof.
  intros H Hk. destruct x as [| | |[|] m e]; try discriminate.
  cbn [within_1pct] in H.
  apply andb_prop in H. destruct H as [H Hhi].
  apply andb_prop in H. destruct H as [Hb Hlo].
  apply Z.leb_le in Hlo, Hhi.
  destruct (bounded_mantissa m e Hb) as (He & Hm & Hnorm).
  set (p := 2 ^ (e + 149)) in *.
  assert (Hp : 0 < p) by (subst p; apply Z.pow_pos_nonneg; lia).
  set (s := Zpos m * p) in *.
  assert (Hs0 : 0 <= s) by (subst s; lia).
  assert (Hslo : 2 ^ 143 <= s).
  { destruct (Z.le_gt_cases (2 ^ 143) s) as [|Hlt]; [assumption|]. exfalso.
    assert ((100 * s) ^ 12 < (100 * 2 ^ 143) ^ 12)
      by (apply Z.pow_lt_mono_l; lia).
    assert ((100 * 2 ^ 143) ^ 12 <= 99 ^ 12 * 2 ^ 1719)
      by (apply Z.leb_le; vm_compute; reflexivity).
    assert (2 ^ 1719 <= 2 ^ (k + 1788)) by (apply Z.pow_le_mono_r; lia).
    assert (0 < 99 ^ 12) by (apply Z.pow_pos_nonneg; lia).
    nia. }
  assert (Hshi : s <= 95554233026664014036852245654643699380824886).
  { destruct (Z.le_gt_cases s 95554233026664014036852245654643699380824886)
      as [|Hgt]; [assumption|]. exfalso.
    assert ((100 * (95554233026664014036852245654643699380824886 + 1)) ^ 12
            <= (100 * s) ^ 12) by (apply Z.pow_le_mono_l; lia).
    assert (101 ^ 12 * 2 ^ 1753
            < (100 * (95554233026664014036852245654643699380824886 + 1)) ^ 12)
      by (apply Z.ltb_lt; vm_compute; reflexivity).
    assert (2 ^ (k + 1788) <= 2 ^ 1753) by (apply Z.pow_le_mono_r; lia).
    assert (0 < 101 ^ 12) by (apply Z.pow_pos_nonneg; lia).
    nia. }
  clear Hlo Hhi.
  assert (Helo : -29 <= e).
  { destruct (Z.le_gt_cases (-29) e) as [|Hlt]; [assumption|]. exfalso.
    assert (p <= 2 ^ 119) by (subst p; apply Z.pow_le_mono_r; lia).
    assert (s < 2 ^ 24 * 2 ^ 119) by (subst s; nia).
    assert (E : 2 ^ 24 * 2 ^ 119 = 2 ^ 143) by (vm_compute; reflexivity).
    rewrite E in *. lia. }
  assert (Hn : 2 ^ 23 <= Zpos m) by (apply Hnorm; lia).
  assert (Hehi : e <= -26).
  { destruct (Z.le_gt_cases e (-26)) as [|Hgt]; [assumption|]. exfalso.
    assert (2 ^ 124 <= p) by (subst p; apply Z.pow_le_mono_r; lia).
    assert (2 ^ 23 * 2 ^ 124 <= s) by (subst s; nia).
    assert (95554233026664014036852245654643699380824886 < 2 ^ 23 * 2 ^ 124)
      by (apply Z.ltb_lt; vm_compute; reflexivity).
    lia. }
  exists m, e. split; [reflexivity|]. split; [lia|]. split; [lia|].
  intros ->. subst s p. replace (-26 + 149) with 123 in * by lia.
  destruct (Z.le_gt_cases (Zpos m) 8985876) as [|Hgt]; [assumption|]. exfalso.
  assert (95554233026664014036852245654643699380824886 < 8985877 * 2 ^ 123)
    by (apply Z.ltb_lt; vm_compute; reflexivity).
  nia.
Qed.

(** A float within one percent of [2^(k/12)], for the notes 108 to 127, is
    at least [9.25] and below [32]. *)
Lemma within_1pct_high (x : float) (k : Z) :
  within_1pct x k = true -> 39 <= k <= 58 ->
  exists m e,
    x = S754_finite false m e
    /\ -20 <= e <= -19
    /\ 2 ^ 23 <= Zpos m < 2 ^ 24
    /\ (e = -20 -> 9699328 <= Zpos m).
Proof.
  intros H Hk. destruct x as [| | |[|] m e]; try discriminate.
  cbn [within_1pct] in H.
  apply andb_prop in H. destruct H as [H Hhi].
  apply andb_prop in H. destruct H as [Hb Hlo].
  apply Z.leb_le in Hlo, Hhi.
  destruct (bounded_mantissa m e Hb) as (He & Hm & Hnorm).
  set (p := 2 ^ (e + 149)) in *.
  assert (Hp : 0 < p) by (subst p; apply Z.pow_pos_nonneg; lia).
  set (s := Zpos m * p) in *.
  assert (Hs0 : 0 <= s) by (subst s; lia).
  assert (Hslo : 9699328 * 2 ^ 129 <= s).
  { destruct (Z.le_gt_cases (9699328 * 2 ^ 129) s) as [|Hlt]; [assumption|].
    exfalso.
    assert ((100 * s) ^ 12 <= (100 * (9699328 * 2 ^ 129 - 1)) ^ 12)
      by (apply Z.pow_le_mono_l; lia).
    assert ((100 * (9699328 * 2 ^ 129 - 1)) ^ 12 < 99 ^ 12 * 2 ^ 1827)
      by (apply Z.ltb_lt; vm_compute; reflexivity).
    assert (2 ^ 1827 <= 2 ^ (k + 1788)) by (apply Z.pow_le_mono_r; lia).
    assert (0 < 99 ^ 12) by (apply Z.pow_pos_nonneg; lia).
    nia. }
  assert (Hshi : s < 2 ^ 154).
  { destruct (Z.lt_ge_cases s (2 ^ 154)) as [|Hge]; [assumption|]. exfalso.
    assert ((100 * 2 ^ 154) ^ 12 <= (100 * s) ^ 12)
      by (apply Z.pow_le_mono_l; lia).
    assert (101 ^ 12 * 2 ^ 1846 < (100 * 2 ^ 154) ^ 12)
      by (apply Z.ltb_lt; vm_compute; reflexivity).
    assert (2 ^ (k + 1788) <= 2 ^ 1846) by (apply Z.pow_le_mono_r; lia).
    assert (0 < 101 ^ 12) by (apply Z.pow_pos_nonneg; lia).
    nia. }
  clear Hlo Hhi.
  assert (Helo : -20 <= e).
  { destruct (Z.le_gt_cases (-20) e) as [|Hlt]; [assumption|]. exfalso.
    assert (p <= 2 ^ 128) by (subst p; apply Z.pow_le_mono_r; lia).
    assert (s < 2 ^ 24 * 2 ^ 128) by (subst s; nia).
    assert (E : 2 ^ 24 * 2 ^ 128 <= 9699328 * 2 ^ 129)
      by (apply Z.leb_le; vm_compute; reflexivity).
    lia. }
  assert (Hn : 2 ^ 23 <= Zpos m) by (apply Hnorm; lia).
  assert (Hehi : e <= -19).
  { destruct (Z.le_gt_cases e (-19)) as [|Hgt]; [assumption|]. exfalso.
    assert (2 ^ 131 <= p) by (subst p; apply Z.pow_le_mono_r; lia).
    assert (2 ^ 23 * 2 ^ 131 <= s) by (subst s; nia).
    assert (E : 2 ^ 23 * 2 ^ 131 = 2 ^ 154) by (vm_compute; reflexivity).
    lia. }
  exists m, e. split; [reflexivity|]. split; [lia|]. split; [lia|].
  intros ->. subst s p. replace (-20 + 149) with 129 in * by lia.
  assert (0 < 2 ^ 129) by (apply Z.pow_pos_nonneg; lia).
  nia.
Qed.

(** 440 times a float of at most [0.1339] is below 60
    ([440 * 0.1339 = 58.9]). *)
Lemma mul_440_low (m : positive) (e : Z) :
  -29 <= e <= -26 -> 2 ^ 23 <= Zpos m < 2 ^ 24 ->
  (e = -26 -> Zpos m <= 8985876) ->
  ltb (mul (of_Z 440) (S754_finite false m e)) (of_Z 60) = true.
Proof.
  intros He Hm Htop.
  destruct (mul_440 m e Hm ltac:(lia)) as (m'' & e'' & -> & Hc).
  change (of_Z 60) with (S754_finite false 15728640 (-18)).
  apply ltb_finite.
  set (M := 14417920 * Zpos m) in *.
  assert (HM : 14417920 * 2 ^ 23 <= M < 14417920 * 2 ^ 24) by (subst M; lia).
  destruct (Z.ltb_spec M (2 ^ 47)) as [Hlt | Hge].
  - pose proof (Z.mul_div_le M (2 ^ 23) ltac:(lia)).
    pose proof (Z.mul_succ_div_gt M (2 ^ 23) ltac:(lia)).
    assert (e = -26 -> M <= 14417920 * 8985876) by (intros E; subst M; specialize (Htop E); lia).
    lia.
  - pose proof (Z.mul_div_le M (2 ^ 24) ltac:(lia)).
    pose proof (Z.mul_succ_div_gt M (2 ^ 24) ltac:(lia)).
    assert (e = -26 -> M <= 14417920 * 8985876) by (intros E; subst M; specialize (Htop E); lia).
    lia.
Qed.

(** 440 times a float of at least [9.25] is above 4000
    ([440 * 9.25 = 4070]). *)
Lemma mul_440_high (m : positive) (e : Z) :
  -20 <= e <= -19 -> 2 ^ 23 <= Zpos m < 2 ^ 24 ->
  (e = -20 -> 9699328 <= Zpos m) ->
  ltb (of_Z 4000) (mul (of_Z 440) (S754_finite false m e)) = true.
Proof.
  intros He Hm Hbot.
  destruct (mul_440 m e Hm ltac:(lia)) as (m'' & e'' & -> & Hc).
  change (of_Z 4000) with (S754_finite false 16384000 (-12)).
  apply ltb_finite.
  set (M := 14417920 * Zpos m) in *.
  assert (HM : 14417920 * 2 ^ 23 <= M < 14417920 * 2 ^ 24) by (subst M; lia).
  destruct (Z.ltb_spec M (2 ^ 47)) as [Hlt | Hge].
  - pose proof (Z.mul_div_le M (2 ^ 23) ltac:(lia)).
    pose proof (Z.mul_succ_div_gt M (2 ^ 23) ltac:(lia)).
    assert (e = -20 -> 14417920 * 9699328 <= M) by (intros E; subst M; specialize (Hbot E); lia).
    lia.
  - pose proof (Z.mul_div_le M (2 ^ 24) ltac:(lia)).
    pose proof (Z.mul_succ_div_gt M (2 ^ 24) ltac:(lia)).
    lia.
Qed.

(** Which MIDI notes lie below 60 Hz and which above 4000 Hz: B1 (61.7 Hz)
    is the lowest that sounds, B7 (3951 Hz) the highest that is not
    clamped. *)
Lemma freq_below_60 (note : Z) :
  0 <= note -> freq_below note 60 <-> note <= 34.
Proof.
  unfold freq_below. intros H0.
  assert (Hpos : 0 < 440 ^ 12) by (apply Z.pow_pos_nonneg; lia).
  split; intros H.
  - destruct (Z.le_gt_cases note 34) as [|Hgt]; [assumption|]. exfalso.
    assert (2 ^ 35 <= 2 ^ note) by (apply Z.pow_le_mono_r; lia).
    assert (E : 60 ^ 12 * 2 ^ 69 < 440 ^ 12 * 2 ^ 35)
      by (apply Z.ltb_lt; vm_compute; reflexivity).
    nia.
  - assert (2 ^ note <= 2 ^ 34) by (apply Z.pow_le_mono_r; lia).
    assert (E : 440 ^ 12 * 2 ^ 34 < 60 ^ 12 * 2 ^ 69)
      by (apply Z.ltb_lt; vm_compute; reflexivity).
    nia.
Qed.

Lemma freq_above_4000 (note : Z) :
  0 <= note -> freq_above note 4000 <-> 108 <= note.
Proof.
  unfold freq_above. intros H0.
  assert (Hpos : 0 < 440 ^ 12) by (apply Z.pow_pos_nonneg; lia).
  split; intros H.
  - destruct (Z.le_gt_cases 108 note) as [|Hlt]; [assumption|]. exfalso.
    assert (2 ^ note <= 2 ^ 107) by (apply Z.pow_le_mono_r; lia).
    assert (E : 440 ^ 12 * 2 ^ 107 < 4000 ^ 12 * 2 ^ 69)
      by (apply Z.ltb_lt; vm_compute; reflexivity).
    nia.
  - assert (2 ^ 108 <= 2 ^ note) by (apply Z.pow_le_mono_r; lia).
    assert (E : 4000 ^ 12 * 2 ^ 69 < 440 ^ 12 * 2 ^ 108)
      by (apply Z.ltb_lt; vm_compute; reflexivity).
    nia.
Qed.

Lemma noteFrequency_exponent (powf : float -> float -> float) (note : Z) :
  noteFrequency powf note = mul (of_Z 440) (powf (of_Z 2) (noteExponent note)).
Proof. reflexivity. Qed.

(** The table of semitones is as accurate as [powf] is asked to be. *)
Lemma powf_semitones_accurate : powf_accurate powf_semitones.
Proof.
  split; [vm_compute; reflexivity|].
  intros note Hn.
  assert (A : forallb (fun n => within_1pct
                                  (powf_semitones (of_Z 2) (noteExponent (Z.of_nat n)))
                                  (Z.of_nat n - 69))
                      (seq 0 128) = true)
    by (vm_compute; reflexivity).
  rewrite forallb_forall in A.
  specialize (A (Z.to_nat note)). rewrite Z2Nat.id in A by lia.
  apply A. apply in_seq. lia.
Qed.

(** C5: with a [powf] that returns 1 for a zero exponent and is within one
    percent on the exponents of the MIDI notes, [midiNoteToFreq 69] is 440,
    every MIDI note whose frequency [440 * 2^((note - 69) / 12)] is below
    60 Hz (the notes up to 34) gives 0, and every MIDI note whose frequency
    exceeds 4000 Hz (the notes from 108 on) gives exactly 4000. *)
Theorem midiNoteToFreq_thresholds (powf : float -> float -> float)
  (note : Z) :
  powf_accurate powf -> 0 <= note <= 127 ->
  midiNoteToFreq powf 69 = 440
  /\ (freq_below note 60 -> midiNoteToFreq powf note = 0)
  /\ (freq_above note 4000 -> midiNoteToFreq powf note = 4000).
Proof.
  intros [H0 Hacc] Hn. split; [|split].
  - apply midiNoteToFreq_69. assumption.
  - intros Hb. apply freq_below_60 in Hb; [|lia].
    destruct (within_1pct_low _ _ (Hacc note Hn) ltac:(lia))
      as (m & e & Hx & He & Hm & Ht).
    unfold midiNoteToFreq. rewrite noteFrequency_exponent, Hx.
    rewrite mul_440_low by assumption. reflexivity.
  - intros Ha. apply freq_above_4000 in Ha; [|lia].
    destruct (within_1pct_high _ _ (Hacc note Hn) ltac:(lia))
      as (m & e & Hx & He & Hm & Ht).
    unfold midiNoteToFreq. rewrite noteFrequency_exponent, Hx.
    pose proof (mul_440_high m e He Hm Ht) as Hhi.
    rewrite (above_4000_not_below_60 _ Hhi), Hhi. reflexivity.
Qed.

(** A#1 (58.3 Hz) is silent and C8 (4186 Hz) is clamped. *)
Lemma midiNoteToFreq_thresholds_witness :
  midiNoteToFreq powf_semitones 69 = 440
  /\ midiNoteToFreq powf_semitones 34 = 0
  /\ midiNoteToFreq powf_semitones 108 = 4000.
Proof.
  destruct (midiNoteToFreq_thresholds powf_semitones 34 powf_semitones_accurate
              ltac:(lia)) as (H69 & Hlow & _).
  destruct (midiNoteToFreq_thresholds powf_semitones 108 powf_semitones_accurate
              ltac:(lia)) as (_ & _ & Hhigh).
  split; [exact H69|]. split.
  - apply Hlow. unfold freq_below. vm_compute. reflexivity.
  - apply Hhigh. unfold freq_above. vm_compute. reflexivity.
Defined.

(** With the table of semitones for [powf], the notes around the two
    thresholds: B1 is the first to sound and B7 the last to keep its
    frequency. *)
Lemma midiNoteToFreq_around_thresholds :
  List.map (midiNoteToFreq powf_semitones) [0; 33; 34; 35; 36; 60; 69; 106; 107; 108; 127]
  = [0; 0; 0; 62; 65; 262; 440; 3729; 3951; 4000; 4000].
Proof. vm_compute. reflexivity. Qed.

(** With a [powf] that is exact on whole exponents, the octaves of A4: A0
    (27.5 Hz) is silent, A8 (7040 Hz) is clamped, those between keep their
    frequency. *)
Lemma midiNoteToFreq_octaves :
  List.map (midiNoteToFreq powf_whole) [21; 33; 45; 57; 69; 81; 93; 105; 117]
  = [0; 0; 110; 220; 440; 880; 1760; 3520; 4000].
Proof. reflexivity. Qed.

(** ** Rests of the gated sketch *)

Section GatedRests.
Import GatedSketch.

Lemma extends_silently_refl (w : world) : extends_silently w w.
Proof. exists []. split; [now rewrite app_nil_r | reflexivity]. Qed.

Lemma extends_silently_trans (w1 w2 w3 : world) :
  extends_silently w1 w2 -> extends_silently w2 w3 -> extends_silently w1 w3.
Proof.
  intros (t1 & E1 & S1) (t2 & E2 & S2). exists (t1 ++ t2). split.
  - rewrite E2, E1, app_assoc. reflexivity.
  - rewrite enables_tone_app, S1, S2. reflexivity.
Qed.

Lemma noTone_silent (w : world) : extends_silently w (noTone w).
Proof. exists [NoTone BUZZ_PIN]. split; reflexivity. Qed.

Lemma delay_silent (ms : Z) (w : world) : extends_silently w (delay ms w).
Proof. exists [Delay ms]. split; reflexivity. Qed.

Variable digitalRead : Z -> bool.

Lemma handlePauseButton_silent (w : world) :
  extends_silently w (handlePauseButton digitalRead w).
Proof.
  unfold handlePauseButton.
  destruct (negb (Bool.eqb (digitalRead (now w)) (lastRead w))); cbn;
    match goal with |- context [?c && ?d] => destruct (c && d) end; cbn;
    try apply extends_silently_refl;
    destruct (Bool.eqb (digitalRead (now w)) LOW); cbn;
    try apply extends_silently_refl;
    destruct (negb (paused w)); cbn;
    solve [ exists []; split; [now rewrite app_nil_r | reflexivity]
          | exists [NoTone BUZZ_PIN]; split; reflexivity ].
Qed.

Lemma waitWhilePaused_silent (fuel : nat) (w w' : world) :
  waitWhilePaused digitalRead fuel w = Some w' -> extends_silently w w'.
Proof.
  revert w. induction fuel as [|fuel IH]; intros w; cbn;
    destruct (paused w); try discriminate;
    try (intros [= <-]; apply extends_silently_refl).
  intros H. apply IH in H.
  eapply extends_silently_trans; [|exact H].
  eapply extends_silently_trans;
    [apply handlePauseButton_silent | apply delay_silent].
Qed.

Lemma restLoop_silent (fuel : nat) (t0 durMs : Z) (w w' : world) :
  restLoop digitalRead fuel t0 durMs w = Some w' -> extends_silently w w'.
Proof.
  revert w. induction fuel as [|fuel IH]; intros w; cbn [restLoop];
    destruct (u32 (millis w - t0) <? durMs); try discriminate;
    try (intros [= <-]; apply extends_silently_refl).
  destruct (waitWhilePaused digitalRead (S fuel) (handlePauseButton digitalRead w))
    as [w1|] eqn:Hw; [|discriminate].
  intros H. apply IH in H. apply waitWhilePaused_silent in Hw.
  eapply extends_silently_trans; [apply handlePauseButton_silent|].
  eapply extends_silently_trans; [exact Hw|].
  eapply extends_silently_trans; [apply delay_silent | exact H].
Qed.

(** X20: whatever the button does and however long the rest is paused, a
    [playRest] that returns has never enabled the tone. *)
Lemma playRest_silent (fuel : nat) (durMs : Z) (w w' : world) :
  playRest digitalRead fuel durMs w = Some w' -> extends_silently w w'.
Proof.
  unfold playRest. intros H. apply restLoop_silent in H.
  eapply extends_silently_trans; [apply noTone_silent | exact H].
Qed.

(** With the button left alone nothing changes in [handlePauseButton]. *)
Lemma handlePauseButton_released (w : world) :
  lastRead w = HIGH -> lastStable w = HIGH ->
  handlePauseButton (fun _ => HIGH) w = w.
Proof.
  intros Hr Hs. unfold handlePauseButton. rewrite Hr. cbn.
  rewrite Hs. cbn. rewrite andb_false_r. reflexivity.
Qed.

(** The rest loop then runs [k] times, [k] being half the time still to
    wait, rounded up, and each time only waits 2 ms. *)
Lemma restLoop_released (k fuel : nat) (t0 durMs : Z) (w : world) :
  (k <= fuel)%nat ->
  paused w = false -> lastRead w = HIGH -> lastStable w = HIGH ->
  0 <= t0 <= now w -> now w + 2 * Z.of_nat k < 2 ^ 32 ->
  Z.of_nat k = Z.max 0 ((durMs - (now w - t0) + 1) / 2) ->
  exists w',
    restLoop (fun _ => HIGH) fuel t0 durMs w = Some w'
    /\ now w' = now w + 2 * Z.of_nat k
    /\ trace w' = trace w ++ repeat (Delay 2) k
    /\ paused w' = false.
Proof.
  revert fuel w. induction k as [|k IH]; intros fuel w Hfuel Hp Hr Hs Ht Hnow Hk.
  - exists w. assert (Hdone : durMs <= now w - t0).
    { destruct (Z.le_gt_cases durMs (now w - t0)) as [|Hgt]; [assumption|].
      assert (1 <= (durMs - (now w - t0) + 1) / 2)
        by (apply Z.div_le_lower_bound; lia).
      lia. }
    repeat split; [|lia|now rewrite app_nil_r|assumption].
    destruct fuel; cbn [restLoop]; unfold millis;
      rewrite u32_small by lia;
      destruct (Z.ltb_spec (now w - t0) durMs); try lia; reflexivity.
  - destruct fuel as [|fuel]; [lia|].
    assert (Hpos : 1 <= (durMs - (now w - t0) + 1) / 2) by lia.
    assert (Hleft : now w - t0 < durMs).
    { destruct (Z.lt_ge_cases (now w - t0) durMs) as [|Hge]; [assumption|].
      assert ((durMs - (now w - t0) + 1) / 2 < 1)
        by (apply Z.div_lt_upper_bound; lia).
      lia. }
    cbn [restLoop]. unfold millis at 1.
    rewrite u32_small by lia.
    destruct (Z.ltb_spec (now w - t0) durMs); [|lia].
    rewrite handlePauseButton_released by assumption.
    cbn [waitWhilePaused]. rewrite Hp.
    destruct (IH fuel (delay 2 w)) as (w' & Hrun & Hnow' & Htr & Hp');
      try assumption; try lia.
    + cbn [delay emit now]. rewrite u32_small by lia. lia.
    + cbn [delay emit now]. rewrite u32_small by lia. lia.
    + cbn [delay emit now]. rewrite u32_small by lia.
      replace (durMs - (now w + 2 - t0) + 1)
        with (durMs - (now w - t0) + 1 + (-1) * 2) by lia.
      rewrite Z.div_add by lia. lia.
    + exists w'. split; [exact Hrun|].
      cbn [delay emit now trace] in Hnow', Htr.
      rewrite u32_small in Hnow' by lia.
      repeat split; [lia | | assumption].
      rewrite Htr, <- app_assoc. reflexivity.
Qed.

(** The loop of [restLoop] compares the time since [t0] with [durMs] before
    it returns. *)
Lemma restLoop_waits (fuel : nat) (t0 durMs : Z) (w w' : world) :
  restLoop digitalRead fuel t0 durMs w = Some w' ->
  durMs <= u32 (now w' - t0).
Proof.
  revert w. induction fuel as [|fuel IH]; intros w; cbn [restLoop];
    unfold millis;
    destruct (Z.ltb_spec (u32 (now w - t0)) durMs); try discriminate;
    try (intros [= <-]; assumption).
  destruct (waitWhilePaused digitalRead (S fuel) (handlePauseButton digitalRead w));
    [|discriminate].
  apply IH.
Qed.







(** With the button left alone [playRest] returns after [durMs] rounded up
    to an even number of milliseconds. *)
Lemma playRest_undisturbed (durMs : Z) (w : world) :
  is_u16 durMs ->
  paused w = false -> lastRead w = HIGH -> lastStable w = HIGH ->
  0 <= now w -> now w + durMs + 1 < 2 ^ 32 ->
  exists w',
    playRest (fun _ => HIGH) (Z.to_nat durMs) durMs w = Some w'
    /\ trace w'
       = trace w ++ NoTone BUZZ_PIN :: repeat (Delay 2) (Z.to_nat ((durMs + 1) / 2))
    /\ now w' - now w = 2 * ((durMs + 1) / 2)
    /\ durMs <= now w' - now w.
Proof.
  intros Hd Hp Hr Hs H0 Hnow. unfold is_u16 in Hd. unfold playRest.
  assert (Hk : 0 <= (durMs + 1) / 2 <= durMs).
  { split; [apply Z.div_pos; lia|].
    destruct (Z.eq_dec durMs 0) as [->|]; [reflexivity|].
    apply Z.div_le_upper_bound; lia. }
  assert (Hup : durMs <= 2 * ((durMs + 1) / 2)).
  { pose proof (Z.div_mod (durMs + 1) 2 ltac:(lia)).
    pose proof (Z.mod_pos_bound (durMs + 1) 2 ltac:(lia)). lia. }
  assert (Hlow : 2 * ((durMs + 1) / 2) <= durMs + 1)
    by (apply Z.mul_div_le; lia).
  destruct (restLoop_released (Z.to_nat ((durMs + 1) / 2)) (Z.to_nat durMs)
              (millis (noTone w)) durMs (noTone w))
    as (w' & Hrun & Hnow' & Htr & _); try assumption.
  - lia.
  - cbn [noTone emit millis now]. lia.
  - cbn [noTone emit millis now]. lia.
  - cbn [noTone emit millis now]. rewrite Z.sub_diag, Z.sub_0_r. lia.
  - exists w'. split; [exact Hrun|].
    cbn [noTone emit now trace] in Hnow', Htr.
    repeat split; try lia.
    rewrite Htr, <- app_assoc. reflexivity.
Qed.

(** X21: an undisturbed [playRest] returns, having switched the tone off and
    waited in steps of 2 ms for [durMs] rounded up to an even number. *)
Lemma playRest_released (durMs : Z) (w : world) :
  is_u16 durMs ->
  paused w = false -> lastRead w = HIGH -> lastStable w = HIGH ->
  0 <= now w -> now w + durMs + 1 < 2 ^ 32 ->
  exists w',
    playRest (fun _ => HIGH) (Z.to_nat durMs) durMs w = Some w'
    /\ trace w'
       = trace w ++ NoTone BUZZ_PIN :: repeat (Delay 2) (Z.to_nat ((durMs + 1) / 2))
    /\ now w' - now w = 2 * ((durMs + 1) / 2)
    /\ durMs <= now w' - now w.
Proof. apply playRest_undisturbed. Qed.

End GatedRests.




(** * Further properties of the sketches *)

(** ** The pots of the envelope sketch *)

Lemma map_pot (pot out_min out_max : Z) :
  0 <= pot -> 0 <= out_max - out_min ->
  Arduino.map pot 0 1023 out_min out_max
  = pot * (out_max - out_min) / 1023 + out_min.
Proof.
  intros Hp Ho. unfold Arduino.map.
  rewrite !Z.sub_0_r. rewrite Z.quot_div_nonneg by nia. reflexivity.
Qed.

(** X1: over the readings 0..1023 the volume level runs from 10 to 255 and
    never decreases as the pot is turned up. *)
Theorem volPotToLevel_monotonic (pot1 pot2 : Z) :
  0 <= pot1 -> pot1 <= pot2 -> pot2 <= 1023 ->
  10 <= volPotToLevel pot1
  /\ volPotToLevel pot1 <= volPotToLevel pot2
  /\ volPotToLevel pot2 <= 255
  /\ volPotToLevel 0 = 10 /\ volPotToLevel 1023 = 255.
Proof.
  intros H1 H12 H2.
  assert (Hv : forall pot, 0 <= pot <= 1023 ->
             volPotToLevel pot = pot * 245 / 1023 + 10
             /\ 0 <= pot * 245 / 1023 <= 245).
  { intros pot Hp. unfold volPotToLevel.
    rewrite map_pot by lia. change (255 - 10) with 245.
    assert (0 <= pot * 245 / 1023 <= 245)
      by (split; [apply Z.div_pos | apply Z.div_le_upper_bound]; lia).
    rewrite u8_small by lia. lia. }
  destruct (Hv pot1 ltac:(lia)) as [-> ?].
  destruct (Hv pot2 ltac:(lia)) as [-> ?].
  assert (pot1 * 245 / 1023 <= pot2 * 245 / 1023)
    by (apply Z.div_le_mono; lia).
  repeat split; try reflexivity; lia.
Qed.

Lemma volPotToLevel_monotonic_witness :
  10 <= volPotToLevel 100
  /\ volPotToLevel 100 <= volPotToLevel 900
  /\ volPotToLevel 900 <= 255
  /\ volPotToLevel 0 = 10 /\ volPotToLevel 1023 = 255.
Proof.
  apply (volPotToLevel_monotonic 100 900); lia.
Defined.

Lemma pitchPotToTranspose_eq (pot : Z) :
  0 <= pot <= 1023 ->
  pitchPotToTranspose pot
  = if (477 <? pot) && (pot <? 547) then 0 else pot * 24 / 1023 - 12.
Proof.
  intros Hp. unfold pitchPotToTranspose, Arduino.abs.
  rewrite map_pot by lia. change (12 - -12) with 24.
  assert (0 <= pot * 24 / 1023 <= 24)
    by (split; [apply Z.div_pos | apply Z.div_le_upper_bound]; lia).
  replace (s8 (pot * 24 / 1023 + -12)) with (pot * 24 / 1023 - 12).
  2:{ unfold s8. replace (pot * 24 / 1023 + -12 + 2 ^ 7)
        with (pot * 24 / 1023 + 116) by lia.
      rewrite Z.mod_small by lia. lia. }
  destruct (Z.ltb_spec 0 (pot - 512));
    match goal with |- context [?a <? 35] => destruct (Z.ltb_spec a 35) end;
    destruct (Z.ltb_spec 477 pot); destruct (Z.ltb_spec pot 547);
    cbn [andb]; try reflexivity; lia.
Qed.

(** X2: over the readings 0..1023 the transpose stays within an octave either
    way and never decreases as the pot is turned up; it is 0 exactly for the
    readings 478..554, reaches +12 only at 1023, and is -12 for 0..42. *)
Theorem pitchPotToTranspose_shape (pot1 pot2 : Z) :
  0 <= pot1 -> pot1 <= pot2 -> pot2 <= 1023 ->
  -12 <= pitchPotToTranspose pot1
  /\ pitchPotToTranspose pot1 <= pitchPotToTranspose pot2
  /\ pitchPotToTranspose pot2 <= 12
  /\ (pitchPotToTranspose pot1 = 0 <-> 478 <= pot1 <= 554)
  /\ (pitchPotToTranspose pot1 = 12 <-> pot1 = 1023)
  /\ (pitchPotToTranspose pot1 = -12 <-> pot1 <= 42).
Proof.
  intros H1 H12 H2.
  rewrite !pitchPotToTranspose_eq by lia.
  pose proof (Z.div_mod (pot1 * 24) 1023 ltac:(lia)) as E1.
  pose proof (Z.mod_pos_bound (pot1 * 24) 1023 ltac:(lia)) as B1.
  pose proof (Z.div_mod (pot2 * 24) 1023 ltac:(lia)) as E2.
  pose proof (Z.mod_pos_bound (pot2 * 24) 1023 ltac:(lia)) as B2.
  destruct (Z.ltb_spec 477 pot1); destruct (Z.ltb_spec pot1 547);
    destruct (Z.ltb_spec 477 pot2); destruct (Z.ltb_spec pot2 547);
    cbn [andb]; repeat split; intros; lia.
Qed.

Lemma pitchPotToTranspose_shape_witness :
  -12 <= pitchPotToTranspose 500
  /\ pitchPotToTranspose 500 <= pitchPotToTranspose 800
  /\ pitchPotToTranspose 800 <= 12
  /\ (pitchPotToTranspose 500 = 0 <-> 478 <= 500 <= 554)
  /\ (pitchPotToTranspose 500 = 12 <-> 500 = 1023)
  /\ (pitchPotToTranspose 500 = -12 <-> 500 <= 42).
Proof.
  apply (pitchPotToTranspose_shape 500 800); lia.
Defined.

(** ** The envelope of the sketch's own constants *)

Lemma sketch_clampedMs (durMs : Z) :
  is_u16 durMs ->
  let a := fst (clampedMs sketch_config durMs) in
  let r := snd (clampedMs sketch_config durMs) in
  10 <= a <= 35 /\ 12 <= r <= 50 /\ (23 <= durMs -> a + r < durMs).
Proof.
  intros Hd. unfold is_u16 in Hd. unfold clampedMs.
  cbn [ATTACK_PCT RELEASE_PCT ATTACK_MIN_MS ATTACK_MAX_MS RELEASE_MIN_MS
       RELEASE_MAX_MS sketch_config fst snd].
  rewrite (u32_small (durMs * 10)), (u32_small (durMs * 12)) by lia.
  assert (0 <= durMs * 10 / 100 <= durMs)
    by (split; [apply Z.div_pos | apply Z.div_le_upper_bound]; lia).
  assert (0 <= durMs * 12 / 100 <= durMs)
    by (split; [apply Z.div_pos | apply Z.div_le_upper_bound]; lia).
  rewrite !u16_small by lia.
  pose proof (Z.div_mod (durMs * 10) 100 ltac:(lia)).
  pose proof (Z.mod_pos_bound (durMs * 10) 100 ltac:(lia)).
  pose proof (Z.div_mod (durMs * 12) 100 ltac:(lia)).
  pose proof (Z.mod_pos_bound (durMs * 12) 100 ltac:(lia)).
  destruct (Z.ltb_spec (durMs * 10 / 100) 10);
    destruct (Z.ltb_spec (durMs * 12 / 100) 12);
    repeat match goal with
           | |- context [?a <? ?b] => destruct (Z.ltb_spec a b)
           end; lia.
Qed.

(** X3: with the sketch's constants attack, hold and release always add up to
    the note; the attack is at most 35 ms and the release at most 50 ms; and
    a note of 23 ms or more has at least 10 ms of attack, 12 ms of release
    and a hold that is not empty. *)
Theorem sketch_envelope_partition (durMs : Z) :
  is_u16 durMs ->
  attackMs sketch_config durMs + holdMs sketch_config durMs
  + releaseMs sketch_config durMs = durMs
  /\ 0 <= attackMs sketch_config durMs <= 35
  /\ 0 <= releaseMs sketch_config durMs <= 50
  /\ 0 <= holdMs sketch_config durMs
  /\ (23 <= durMs ->
      10 <= attackMs sketch_config durMs
      /\ 12 <= releaseMs sketch_config durMs
      /\ 0 < holdMs sketch_config durMs).
Proof.
  intros Hd. destruct (sketch_clampedMs durMs Hd) as (Ha & Hr & Hlong).
  unfold attackMs, releaseMs, holdMs.
  rewrite (envelopeMs_no_wrap sketch_config sketch_config_typed durMs Hd)
    by lia.
  unfold is_u16 in Hd.
  assert (0 <= durMs / 2 <= durMs)
    by (split; [apply Z.div_pos | apply Z.div_le_upper_bound]; lia).
  destruct (Z.leb_spec durMs (fst (clampedMs sketch_config durMs)
                              + snd (clampedMs sketch_config durMs)));
    cbn [fst snd]; repeat split; intros; lia.
Qed.

Lemma sketch_envelope_partition_witness :
  attackMs sketch_config 455 + holdMs sketch_config 455
  + releaseMs sketch_config 455 = 455
  /\ 0 <= attackMs sketch_config 455 <= 35
  /\ 0 <= releaseMs sketch_config 455 <= 50
  /\ 0 <= holdMs sketch_config 455
  /\ (23 <= 455 ->
      10 <= attackMs sketch_config 455
      /\ 12 <= releaseMs sketch_config 455
      /\ 0 < holdMs sketch_config 455).
Proof.
  apply (sketch_envelope_partition 455). unfold is_u16. lia.
Defined.

(** ** Ramps and phases *)

(** X4: a rising ramp starts at its start level, never decreases from gate
    to gate, and with two gates or more ends exactly at its end level. *)
Theorem rising_ramp_shape (levelStart levelEnd steps s1 s2 : Z) :
  0 <= levelStart <= levelEnd -> levelEnd < 2 ^ 8 ->
  0 <= s1 -> s1 <= s2 -> s2 < steps -> steps < 2 ^ 16 ->
  gateLevel levelStart levelEnd steps 0 = levelStart
  /\ gateLevel levelStart levelEnd steps s1 <= gateLevel levelStart levelEnd steps s2
  /\ (2 <= steps -> gateLevel levelStart levelEnd steps (steps - 1) = levelEnd).
Proof.
  intros Hl He H1 H12 H2 Hs.
  destruct (gateLevel_rising levelStart levelEnd steps 0) as [E0 _]; try lia.
  destruct (gateLevel_rising levelStart levelEnd steps s1) as [E1 _]; try lia.
  destruct (gateLevel_rising levelStart levelEnd steps s2) as [E2 _]; try lia.
  rewrite E0, E1, E2. unfold linear_level.
  assert (Hd : 0 < Z.max 1 (steps - 1)) by lia.
  rewrite !Z.quot_div_nonneg by nia.
  split; [|split].
  - rewrite Z.mul_0_r, Z.div_0_l by lia. lia.
  - assert ((levelEnd - levelStart) * s1 / Z.max 1 (steps - 1)
            <= (levelEnd - levelStart) * s2 / Z.max 1 (steps - 1))
      by (apply Z.div_le_mono; nia).
    lia.
  - intros Hsteps.
    destruct (gateLevel_rising levelStart levelEnd steps (steps - 1)) as [Ee _];
      try lia.
    rewrite Ee. unfold linear_level.
    rewrite Z.quot_div_nonneg by nia.
    replace (Z.max 1 (steps - 1)) with (steps - 1) by lia.
    rewrite Z.div_mul by lia. lia.
Qed.

Lemma rising_ramp_shape_witness :
  gateLevel 0 200 11 0 = 0
  /\ gateLevel 0 200 11 3 <= gateLevel 0 200 11 7
  /\ (2 <= 11 -> gateLevel 0 200 11 (11 - 1) = 200).
Proof.
  apply (rising_ramp_shape 0 200 11 3 7); lia.
Defined.

Lemma falling_ramp_last_level_witness :
  gateLevel 255 0 4 (4 - 1) = (2 ^ 32 / (4 - 1)) mod 2 ^ 8.
Proof.
  apply (falling_ramp_last_level 255 4); lia.
Defined.

Lemma tones_in_app (pin lo hi : Z) (t1 t2 : list action) :
  tones_in pin lo hi (t1 ++ t2) = tones_in pin lo hi t1 && tones_in pin lo hi t2.
Proof. unfold tones_in. apply forallb_app. Qed.

Lemma tones_in_for_steps (pin lo hi : Z) (body : Z -> list action) (n : nat) (s : Z) :
  (forall i, tones_in pin lo hi (body i) = true) ->
  tones_in pin lo hi (for_steps body s n) = true.
Proof.
  intros Hbody. revert s.
  induction n as [|n IH]; intros s; cbn [for_steps]; [reflexivity|].
  rewrite tones_in_app, Hbody, IH. reflexivity.
Qed.

(** A loop of one or more bodies that each leave the tone off leaves it off. *)
Lemma tone_after_for_steps (body : Z -> list action) (n : nat) (s : Z) (on : bool) :
  (forall i b, tone_after b (body i) = false) ->
  tone_after on (for_steps body s (S n)) = false.
Proof.
  intros Hbody. revert s on. induction n as [|n IH]; intros s on.
  - cbn. rewrite app_nil_r. apply Hbody.
  - cbn [for_steps]. rewrite tone_after_app. apply IH.
Qed.

Lemma elapsed_ms_for_steps (body : Z -> list action) (n : nat) (s : Z) :
  elapsed_ms (for_steps body s n)
  = sum_steps (fun i => elapsed_ms (body i)) s n.
Proof.
  revert s. induction n as [|n IH]; intros s; cbn; [reflexivity|].
  rewrite elapsed_ms_app, IH. reflexivity.
Qed.

Lemma sum_steps_const (c : Z) (f : Z -> Z) (n : nat) (s : Z) :
  (forall i, f i = c) -> sum_steps f s n = c * Z.of_nat n.
Proof.
  intros Hf. revert s. induction n as [|n IH]; intros s; cbn [sum_steps]; [lia|].
  rewrite Hf, IH. lia.
Qed.

(** Bodies that each sound for at most [c] and leave the tone off sound for
    at most [c] per iteration. *)
Lemma audible_ms_for_steps_le (c : Z) (body : Z -> list action) (n : nat)
  (s : Z) (on : bool) :
  (forall i b, 0 <= audible_ms b (body i) <= c) ->
  (forall i b, tone_after b (body i) = false) ->
  0 <= audible_ms on (for_steps body s n) <= c * Z.of_nat n.
Proof.
  intros Ha Ht. revert s on. induction n as [|n IH]; intros s on; cbn [for_steps].
  - cbn. lia.
  - rewrite audible_ms_app, Ht.
    specialize (Ha s on). specialize (IH (s + 1) false). lia.
Qed.

(** X5: a phase of [ms > 0] milliseconds lasts a whole number of gate
    periods, [max(1, ms / period)] of them: less than one period short of
    [ms], never longer than [ms] unless [ms] is below one period; it sounds
    for no longer than it lasts and leaves the tone off. *)
Theorem gateFor_duration (cfg : envelope_config)
  (freq ms levelStart levelEnd : Z) (on : bool) :
  0 < GATE_PERIOD_MS cfg < 2 ^ 8 -> 0 < ms ->
  let tr := gateFor cfg freq ms levelStart levelEnd in
  elapsed_ms tr = GATE_PERIOD_MS cfg * Z.max 1 (ms / GATE_PERIOD_MS cfg)
  /\ ms - GATE_PERIOD_MS cfg < elapsed_ms tr
  /\ (GATE_PERIOD_MS cfg <= ms -> elapsed_ms tr <= ms)
  /\ 0 <= audible_ms on tr <= elapsed_ms tr
  /\ tone_after on tr = false.
Proof.
  intros HG Hms tr. subst tr. unfold gateFor.
  destruct (Z.eqb_spec ms 0) as [|_]; [lia|].
  assert (HGu : is_u8 (GATE_PERIOD_MS cfg)) by (unfold is_u8; lia).
  rewrite gateSteps_max.
  set (G := GATE_PERIOD_MS cfg) in *.
  set (steps := Z.max 1 (ms / G)).
  assert (Hdiv : 0 <= ms / G) by (apply Z.div_pos; lia).
  pose proof (Z.div_mod ms G ltac:(lia)) as Edm.
  pose proof (Z.mod_pos_bound ms G ltac:(lia)) as Bdm.
  assert (Hgate : forall i b,
             elapsed_ms (gate cfg freq (gateLevel levelStart levelEnd steps i)) = G
             /\ 0 <= audible_ms b (gate cfg freq (gateLevel levelStart levelEnd steps i)) <= G
             /\ tone_after b (gate cfg freq (gateLevel levelStart levelEnd steps i)) = false).
  { intros i b.
    assert (Hl : is_u8 (gateLevel levelStart levelEnd steps i))
      by (unfold gateLevel; apply u8_range).
    destruct (gate_timing cfg HGu b freq _ Hl) as (He & Ha & Ht).
    destruct (gateOnMs_exact cfg HGu _ Hl) as [Hon Hr].
    fold G in He, Ha, Hon, Hr.
    repeat split; try assumption; rewrite Ha, <- Hon; lia. }
  assert (Hel : elapsed_ms (for_steps (fun s => gate cfg freq
                  (gateLevel levelStart levelEnd steps s)) 0 (Z.to_nat steps))
                = G * steps).
  { rewrite elapsed_ms_for_steps.
    rewrite (sum_steps_const G) by (intros i; apply (Hgate i false)). lia. }
  rewrite Hel.
  assert (Hnat : Z.to_nat steps = S (Z.to_nat (steps - 1)))
    by (rewrite <- Z2Nat.inj_succ by lia; f_equal; lia).
  split; [reflexivity|]. split; [nia|]. split; [intros; nia|]. split.
  - pose proof (audible_ms_for_steps_le G
        (fun s => gate cfg freq (gateLevel levelStart levelEnd steps s))
        (Z.to_nat steps) 0 on
        (fun i b => proj1 (proj2 (Hgate i b)))
        (fun i b => proj2 (proj2 (Hgate i b)))). lia.
  - rewrite Hnat. apply tone_after_for_steps.
    intros i b. apply (Hgate i b).
Qed.

Lemma gateFor_duration_witness :
  let tr := gateFor sketch_config 440 35 0 255 in
  elapsed_ms tr = GATE_PERIOD_MS sketch_config
                  * Z.max 1 (35 / GATE_PERIOD_MS sketch_config)
  /\ 35 - GATE_PERIOD_MS sketch_config < elapsed_ms tr
  /\ (GATE_PERIOD_MS sketch_config <= 35 -> elapsed_ms tr <= 35)
  /\ 0 <= audible_ms false tr <= elapsed_ms tr
  /\ tone_after false tr = false.
Proof.
  apply (gateFor_duration sketch_config 440 35 0 255 false); cbn; lia.
Defined.

(** ** Notes of the envelope sketch *)

Lemma gate_tones (cfg : envelope_config) (freq lvl : Z) :
  tones_in BUZZ_PIN freq freq (gate cfg freq lvl) = true.
Proof.
  unfold gate.
  destruct (0 <? gateOnMs cfg lvl);
    destruct (0 <? u16 (GATE_PERIOD_MS cfg - gateOnMs cfg lvl));
    cbn; rewrite ?Z.eqb_refl, ?Z.leb_refl; reflexivity.
Qed.

Lemma gateFor_tones (cfg : envelope_config) (freq ms levelStart levelEnd : Z) :
  tones_in BUZZ_PIN freq freq (gateFor cfg freq ms levelStart levelEnd) = true.
Proof.
  unfold gateFor. destruct (ms =? 0); [reflexivity|].
  apply tones_in_for_steps. intros i. apply gate_tones.
Qed.

(** X6: whatever its arguments, [playToneWithEnvelope] enables the tone only
    on the buzzer pin and only at the frequency it was given, and it returns
    with the tone off. *)
Theorem playToneWithEnvelope_tones (ms : Z) (cfg : envelope_config)
  (freq durMs volLevel : Z) (on : bool) :
  tones_in BUZZ_PIN freq freq (playToneWithEnvelope ms cfg freq durMs volLevel)
  = true
  /\ tone_after on (playToneWithEnvelope ms cfg freq durMs volLevel) = false.
Proof.
  unfold playToneWithEnvelope.
  destruct ((freq =? 0) || (durMs =? 0)); [split; reflexivity|].
  destruct (envelopeMs cfg durMs) as [[a r] h]. split.
  - rewrite !tones_in_app, !gateFor_tones.
    destruct (0 <? h); [|reflexivity].
    rewrite tones_in_for_steps by (intros i; apply gate_tones). reflexivity.
  - rewrite !app_assoc, tone_after_app. reflexivity.
Qed.

Lemma playNote_range (note pitPot : Z) : 0 <= playNote note pitPot <= 127.
Proof.
  unfold playNote.
  destruct (Z.ltb_spec (s16 (note + pitchPotToTranspose pitPot)) 0);
    match goal with |- context [127 <? ?a] => destruct (Z.ltb_spec 127 a) end;
    lia.
Qed.

Lemma playEvent_note (ms : Z) (powf : float -> float -> float)
  (note ticks volPot pitPot : Z) :
  0 <= note ->
  playEvent ms powf note ticks volPot pitPot
  = playToneWithEnvelope ms sketch_config
      (midiNoteToFreq powf (playNote note pitPot))
      (notePlayMs (ticksToMs ticks)) (volPotToLevel volPot)
    ++ (if 0 <? noteGap (ticksToMs ticks)
        then [NoTone BUZZ_PIN; Delay (noteGap (ticksToMs ticks))] else []).
Proof.
  intros Hn. unfold playEvent, playNote.
  destruct (Z.ltb_spec note 0); [lia|]. reflexivity.
Qed.

(** X7: the note a sounding event converts to a frequency is always within
    0..127; for a table note of 12..115 and a pot reading of 0..1023 it is
    the table's note plus the transpose, unclamped. *)
Theorem event_note_in_range (ms : Z) (powf : float -> float -> float)
  (note ticks volPot pitPot : Z) :
  0 <= note ->
  0 <= playNote note pitPot <= 127
  /\ playEvent ms powf note ticks volPot pitPot
     = playToneWithEnvelope ms sketch_config
         (midiNoteToFreq powf (playNote note pitPot))
         (notePlayMs (ticksToMs ticks)) (volPotToLevel volPot)
       ++ (if 0 <? noteGap (ticksToMs ticks)
           then [NoTone BUZZ_PIN; Delay (noteGap (ticksToMs ticks))] else [])
  /\ (12 <= note <= 115 -> 0 <= pitPot <= 1023 ->
      playNote note pitPot = note + pitchPotToTranspose pitPot).
Proof.
  intros Hn. split; [apply playNote_range|].
  split; [now apply playEvent_note|].
  intros Hnote Hpot. unfold playNote.
  rewrite pitchPotToTranspose_eq by lia.
  assert (0 <= pitPot * 24 / 1023 <= 24)
    by (split; [apply Z.div_pos | apply Z.div_le_upper_bound]; lia).
  set (t := if (477 <? pitPot) && (pitPot <? 547) then 0
            else pitPot * 24 / 1023 - 12).
  assert (Ht : -12 <= t <= 12)
    by (subst t; destruct ((477 <? pitPot) && (pitPot <? 547)); lia).
  assert (Hs : s16 (note + t) = note + t).
  { unfold s16. rewrite Z.mod_small by lia. lia. }
  rewrite Hs.
  destruct (Z.ltb_spec (note + t) 0); [lia|].
  destruct (Z.ltb_spec 127 (note + t)); [lia|]. reflexivity.
Qed.

Lemma event_note_in_range_witness :
  0 <= playNote 60 800 <= 127
  /\ playEvent 0 powf_whole 60 384 512 800
     = playToneWithEnvelope 0 sketch_config
         (midiNoteToFreq powf_whole (playNote 60 800))
         (notePlayMs (ticksToMs 384)) (volPotToLevel 512)
       ++ (if 0 <? noteGap (ticksToMs 384)
           then [NoTone BUZZ_PIN; Delay (noteGap (ticksToMs 384))] else [])
  /\ playNote 60 800 = 60 + pitchPotToTranspose 800.
Proof.
  destruct (event_note_in_range 0 powf_whole 60 384 512 800) as (Hr & He & Hp);
    [lia|].
  split; [exact Hr|]. split; [exact He | apply Hp; lia].
Defined.

(** X8: a note whose frequency comes out as 0 is played as a rest: the event
    never enables the tone, nothing of it is audible, and sounding part and
    gap together last exactly the converted duration. *)
Theorem inaudible_note_is_rest (ms : Z) (powf : float -> float -> float)
  (note ticks volPot pitPot : Z) (on : bool) :
  0 <= note ->
  midiNoteToFreq powf (playNote note pitPot) = 0 ->
  let tr := playEvent ms powf note ticks volPot pitPot in
  enables_tone tr = false
  /\ audible_ms on tr = 0
  /\ elapsed_ms tr = ticksToMs ticks.
Proof.
  intros Hn Hf tr. subst tr. rewrite playEvent_note by assumption.
  rewrite Hf. unfold playToneWithEnvelope. cbn [Z.eqb orb].
  destruct (noteGap_cases (ticksToMs ticks) (ticksToMs_range ticks))
    as (_ & _ & Hsum).
  assert (Hgap : 0 <= noteGap (ticksToMs ticks))
    by (unfold noteGap, MIN_NOTE_MS_GAP; destruct (_ <=? _); lia).
  set (d := ticksToMs ticks) in *.
  set (g := noteGap d) in *. set (p := notePlayMs d) in *.
  clearbody g p d.
  destruct (Z.ltb_spec 0 g); cbn; repeat split; lia.
Qed.

Lemma inaudible_note_is_rest_witness :
  let tr := playEvent 0 powf_whole 21 384 512 512 in
  enables_tone tr = false
  /\ audible_ms true tr = 0
  /\ elapsed_ms tr = ticksToMs 384.
Proof.
  apply (inaudible_note_is_rest 0 powf_whole 21 384 512 512 true);
    [lia | reflexivity].
Defined.

(** ** Loops over tables *)

(** Bodies that start by setting the tone and leave it off: what the loop
    makes audible is the sum of what each body does. *)
Lemma audible_ms_for_steps (body : Z -> list action) (n : nat) (s : Z) (on : bool) :
  (forall i b, audible_ms b (body i) = audible_ms false (body i)) ->
  (forall i b, tone_after b (body i) = false) ->
  audible_ms on (for_steps body s n)
  = sum_steps (fun i => audible_ms false (body i)) s n.
Proof.
  intros Ha Ht. revert s on.
  induction n as [|n IH]; intros s on; cbn [for_steps sum_steps]; [reflexivity|].
  rewrite audible_ms_app, Ht, Ha, IH. reflexivity.
Qed.

Lemma sum_steps_ext (f g : Z -> Z) (n : nat) (s : Z) :
  (forall i, f i = g i) -> sum_steps f s n = sum_steps g s n.
Proof.
  intros Hfg. revert s. induction n as [|n IH]; intros s; cbn [sum_steps];
    [reflexivity|]. rewrite Hfg, IH. reflexivity.
Qed.

Lemma nth_in_range (l : list Z) (lo hi : Z) (i : nat) :
  Forall (fun x => lo <= x < hi) l -> lo <= 0 < hi -> lo <= nth i l 0 < hi.
Proof.
  intros Hl H0. revert i. induction Hl as [|x l Hx Hl IH]; intros [|i]; cbn;
    try lia. apply IH.
Qed.

(** ** The plain sketch *)

Section PlainLoop.

Variable powf : float -> float -> float.

Lemma plain_playEvent (note tks : Z) (on : bool) :
  elapsed_ms (PlainSketch.playEvent powf note tks)
  = PlainSketch.ticksToMs tks + (if PlainSketch.sounds powf note then 5 else 0)
  /\ audible_ms on (PlainSketch.playEvent powf note tks)
     = (if PlainSketch.sounds powf note then PlainSketch.ticksToMs tks else 0)
  /\ tone_after on (PlainSketch.playEvent powf note tks) = false.
Proof.
  unfold PlainSketch.playEvent, PlainSketch.sounds.
  destruct (note <? 0); cbn [negb andb].
  - cbn. repeat split; lia.
  - destruct (PlainSketch.midiNoteToFreq powf (PlainSketch.playNote note) =? 0);
      cbn; repeat split; lia.
Qed.

End PlainLoop.

(** X9: one pass of the plain sketch's [loop] over tables of notes and ticks
    lasts the converted durations of all events, 5 ms more for each event
    that sounds, and the closing 2000 ms; it is audible for the durations of
    the sounding events and for nothing else. *)
Theorem plain_loop_timing (powf : float -> float -> float)
  (notes ticks : list Z) (on : bool) :
  notes <> [] -> (length notes <= length ticks)%nat ->
  elapsed_ms (PlainSketch.loop_over powf notes ticks)
  = sum_steps (fun i => PlainSketch.ticksToMs (nth (Z.to_nat i) ticks 0)
                        + (if PlainSketch.sounds powf (nth (Z.to_nat i) notes 0)
                           then 5 else 0))
              0 (length notes)
    + 2000
  /\ audible_ms on (PlainSketch.loop_over powf notes ticks)
     = sum_steps (fun i => if PlainSketch.sounds powf (nth (Z.to_nat i) notes 0)
                           then PlainSketch.ticksToMs (nth (Z.to_nat i) ticks 0)
                           else 0)
                 0 (length notes).
Proof.
  intros Hne _. unfold PlainSketch.loop_over.
  set (body := fun i => PlainSketch.playEvent powf (nth (Z.to_nat i) notes 0)
                                              (nth (Z.to_nat i) ticks 0)).
  split.
  - rewrite elapsed_ms_app, elapsed_ms_for_steps. cbn [elapsed_ms].
    rewrite (sum_steps_ext _ (fun i =>
               PlainSketch.ticksToMs (nth (Z.to_nat i) ticks 0)
               + (if PlainSketch.sounds powf (nth (Z.to_nat i) notes 0)
                  then 5 else 0)));
      [lia|].
    intros i. subst body. apply (plain_playEvent powf _ _ false).
  - rewrite audible_ms_app.
    assert (Hoff : tone_after on (for_steps body 0 (length notes)) = false).
    { destruct notes as [|x notes']; [contradiction|].
      cbn [length]. apply tone_after_for_steps.
      intros i b. subst body. apply (plain_playEvent powf _ _ b). }
    rewrite Hoff. cbn [audible_ms]. rewrite Z.add_0_r.
    rewrite audible_ms_for_steps.
    + apply sum_steps_ext. intros i. subst body.
      apply (plain_playEvent powf _ _ false).
    + intros i b. subst body. cbv beta.
      destruct (plain_playEvent powf (nth (Z.to_nat i) notes 0)
                  (nth (Z.to_nat i) ticks 0) b) as (_ & -> & _).
      destruct (plain_playEvent powf (nth (Z.to_nat i) notes 0)
                  (nth (Z.to_nat i) ticks 0) false) as (_ & -> & _).
      reflexivity.
    + intros i b. subst body. apply (plain_playEvent powf _ _ b).
Qed.

(** The sketch's own tables, with a [powf] under which every note of them
    sounds: a pass lasts 155190 ms, 149125 ms of them audible. *)
Lemma plain_loop_timing_witness :
  elapsed_ms (PlainSketch.loop powf_whole) = 155190
  /\ audible_ms false (PlainSketch.loop powf_whole) = 149125.
Proof.
  destruct (plain_loop_timing powf_whole PlainSketch.SONG_NOTES
              PlainSketch.SONG_TICKS false) as [He Ha].
  - discriminate.
  - vm_compute. apply le_n.
  - split.
    + unfold PlainSketch.loop. rewrite He. vm_compute. reflexivity.
    + unfold PlainSketch.loop. rewrite Ha. vm_compute. reflexivity.
Defined.

(** ** The table sketch *)

Lemma table_playEntry (freq dur : Z) (on : bool) :
  0 <= dur < 2 ^ 15 ->
  elapsed_ms (TableSketch.playEntry freq dur) = dur + 10
  /\ audible_ms on (TableSketch.playEntry freq dur) = (if 0 <? freq then dur else 0)
  /\ tone_after on (TableSketch.playEntry freq dur) = false.
Proof.
  intros Hd. unfold TableSketch.playEntry. rewrite u32_small by lia.
  destruct (Z.leb_spec freq 0); destruct (Z.ltb_spec 0 freq); try lia;
    cbn; repeat split; lia.
Qed.

Lemma table_playEntry_tones (freq dur : Z) :
  tones_in TableSketch.BUZZ_PIN 60 4000 (TableSketch.playEntry freq dur) = true.
Proof.
  unfold TableSketch.playEntry, tones_in.
  destruct (freq <=? 0); [reflexivity|].
  destruct (Z.ltb_spec freq 60).
  - reflexivity.
  - destruct (Z.ltb_spec 4000 freq); cbn [app forallb]; rewrite Z.eqb_refl;
      cbn [andb].
    + reflexivity.
    + destruct (Z.leb_spec 60 freq); [|lia].
      destruct (Z.leb_spec freq 4000); [|lia]. reflexivity.
Qed.

(** X10: whatever its tables hold, the table sketch's [loop] enables the tone
    only on the buzzer pin and only between 60 and 4000 Hz. *)
Theorem table_loop_tones (melody durations : list Z) :
  tones_in TableSketch.BUZZ_PIN 60 4000 (TableSketch.loop_over melody durations)
  = true.
Proof.
  unfold TableSketch.loop_over. rewrite tones_in_app.
  rewrite tones_in_for_steps by (intros i; apply table_playEntry_tones).
  reflexivity.
Qed.

(** X11: one pass of the table sketch's [loop] lasts the durations of the
    entries it plays, 10 ms more for each, and the closing 3000 ms; it is
    audible for the durations of the entries with a frequency above 0 and
    for nothing else.  (The tables must give every entry a duration, none
    negative.) *)
Theorem table_loop_timing (melody durations : list Z) (on : bool) :
  melody <> [] -> (length melody <= length durations)%nat ->
  Forall (fun d => 0 <= d < 2 ^ 15) durations ->
  elapsed_ms (TableSketch.loop_over melody durations)
  = sum_steps (fun i => nth (Z.to_nat i) durations 0 + 10) 0 (length melody)
    + 3000
  /\ audible_ms on (TableSketch.loop_over melody durations)
     = sum_steps (fun i => if 0 <? nth (Z.to_nat i) melody 0
                           then nth (Z.to_nat i) durations 0 else 0)
                 0 (length melody).
Proof.
  intros Hne _ Hd. unfold TableSketch.loop_over.
  assert (Hnth : forall i, 0 <= nth i durations 0 < 2 ^ 15)
    by (intros i; apply nth_in_range; [assumption | lia]).
  set (body := fun i => TableSketch.playEntry (nth (Z.to_nat i) melody 0)
                                              (nth (Z.to_nat i) durations 0)).
  assert (Hbody : forall i b,
             elapsed_ms (body i) = nth (Z.to_nat i) durations 0 + 10
             /\ audible_ms b (body i)
                = (if 0 <? nth (Z.to_nat i) melody 0
                   then nth (Z.to_nat i) durations 0 else 0)
             /\ tone_after b (body i) = false)
    by (intros i b; subst body; apply table_playEntry, Hnth).
  split.
  - rewrite elapsed_ms_app, elapsed_ms_for_steps. cbn [elapsed_ms].
    rewrite (sum_steps_ext _ (fun i => nth (Z.to_nat i) durations 0 + 10));
      [lia|].
    intros i. apply (Hbody i false).
  - rewrite audible_ms_app.
    assert (Hoff : tone_after on (for_steps body 0 (length melody)) = false).
    { destruct melody as [|x melody']; [contradiction|].
      cbn [length]. apply tone_after_for_steps.
      intros i b. apply (Hbody i b). }
    rewrite Hoff. cbn [audible_ms]. rewrite Z.add_0_r.
    rewrite audible_ms_for_steps.
    + apply sum_steps_ext. intros i. apply (Hbody i false).
    + intros i b. destruct (Hbody i b) as (_ & -> & _).
      destruct (Hbody i false) as (_ & -> & _). reflexivity.
    + intros i b. apply (Hbody i b).
Qed.

(** The sketch's own tables: 103 entries, a duration for each (the 104th
    is never played); a pass lasts 76339 ms, 53698 ms of them audible. *)
Lemma table_loop_timing_witness :
  elapsed_ms TableSketch.loop = 76339
  /\ audible_ms false TableSketch.loop = 53698.
Proof.
  destruct (table_loop_timing TableSketch.melody TableSketch.durations false)
    as [He Ha].
  - discriminate.
  - vm_compute. apply le_S, le_n.
  - unfold TableSketch.durations.
    repeat (apply Forall_cons; [lia|]). apply Forall_nil.
  - split.
    + unfold TableSketch.loop. rewrite He. vm_compute. reflexivity.
    + unfold TableSketch.loop. rewrite Ha. vm_compute. reflexivity.
Defined.

(** ** The pause button of the gated sketch *)

Section GatedButton.
Import GatedSketch.

Variable digitalRead : Z -> bool.

(** X12: [handlePauseButton] toggles [paused] exactly when it reads the
    button low, has read it low before, more than 25 ms have passed since
    the level last changed, and the stable level was high; a level read for
    the first time never toggles.  It takes no time, and the only thing it
    does to the buzzer is to switch the tone off when it pauses. *)
Theorem handlePauseButton_toggles (w : world) :
  let r := digitalRead (now w) in
  let pressed :=
    negb r && negb (lastRead w) && lastStable w
    && (DEBOUNCE_MS <? u32 (now w - lastChangeMs w)) in
  let w' := handlePauseButton digitalRead w in
  now w' = now w
  /\ paused w' = xorb (paused w) pressed
  /\ lastRead w' = r
  /\ trace w'
     = trace w ++ (if pressed && negb (paused w) then [NoTone BUZZ_PIN] else []).
Proof.
  destruct w as [n p ls lr lc tr]. unfold handlePauseButton, millis.
  cbn [now paused lastStable lastRead lastChangeMs trace].
  destruct (digitalRead n), lr, ls, p;
    cbn [negb andb xorb Bool.eqb now paused lastStable lastRead lastChangeMs
         trace millis HIGH LOW];
    rewrite ?Z.sub_diag;
    try change (DEBOUNCE_MS <? u32 0) with false;
    try destruct (DEBOUNCE_MS <? u32 (n - lc));
    cbn [negb andb xorb Bool.eqb now paused lastStable lastRead lastChangeMs
         trace millis HIGH LOW noTone emit];
    rewrite ?app_nil_r; repeat split; reflexivity.
Qed.

(** What [waitWhilePaused] returns is not paused. *)
Lemma waitWhilePaused_unpaused (fuel : nat) (w w' : world) :
  waitWhilePaused digitalRead fuel w = Some w' -> paused w' = false.
Proof.
  revert w. induction fuel as [|fuel IH]; intros w; cbn [waitWhilePaused];
    destruct (paused w) eqn:Hp; try discriminate;
    try (intros [= <-]; exact Hp).
  apply IH.
Qed.

(** X13: [waitWhilePaused] returns only once the player is no longer paused,
    never enables the tone while it waits, and returns at once, changing
    nothing, when the player is not paused. *)
Theorem waitWhilePaused_returns_unpaused (fuel : nat) (w w' : world) :
  waitWhilePaused digitalRead fuel w = Some w' ->
  paused w' = false
  /\ extends_silently w w'
  /\ (paused w = false -> w' = w).
Proof.
  intros H. split; [eapply waitWhilePaused_unpaused; exact H|].
  split; [eapply waitWhilePaused_silent; exact H|].
  intros Hp. destruct fuel; cbn [waitWhilePaused] in H; rewrite Hp in H;
    now injection H.
Qed.

(** X14: however the button is used, [playRest] does not return before
    [durMs] milliseconds have passed on the clock. *)
Theorem playRest_waits (fuel : nat) (durMs : Z) (w w' : world) :
  playRest digitalRead fuel durMs w = Some w' ->
  durMs <= u32 (now w' - now w).
Proof.
  unfold playRest. intros H. apply restLoop_waits in H. exact H.
Qed.

End GatedButton.

(** A press that has been held for 100 ms ends a pause. *)
Lemma waitWhilePaused_returns_unpaused_witness :
  let w := {| GatedSketch.now := 100; GatedSketch.paused := true;
              GatedSketch.lastStable := GatedSketch.HIGH;
              GatedSketch.lastRead := GatedSketch.LOW;
              GatedSketch.lastChangeMs := 0; GatedSketch.trace := [] |} in
  match GatedSketch.waitWhilePaused (fun _ => GatedSketch.LOW) 1 w with
  | Some w' =>
      GatedSketch.paused w' = false
      /\ GatedSketch.extends_silently w w'
      /\ (GatedSketch.paused w = false -> w' = w)
  | None => False
  end.
Proof.
  intros w.
  destruct (GatedSketch.waitWhilePaused (fun _ => GatedSketch.LOW) 1 w)
    as [w'|] eqn:E.
  - exact (waitWhilePaused_returns_unpaused (fun _ => GatedSketch.LOW) 1 w w' E).
  - vm_compute in E. discriminate E.
Defined.

(** A rest of 7 ms with the button left alone. *)
Lemma playRest_waits_witness :
  match GatedSketch.playRest (fun _ => GatedSketch.HIGH) 7 7 GatedSketch.start with
  | Some w' => 7 <= u32 (GatedSketch.now w' - GatedSketch.now GatedSketch.start)
  | None => False
  end.
Proof.
  destruct (GatedSketch.playRest (fun _ => GatedSketch.HIGH) 7 7 GatedSketch.start)
    as [w'|] eqn:E.
  - exact (playRest_waits (fun _ => GatedSketch.HIGH) 7 7 GatedSketch.start w' E).
  - vm_compute in E. discriminate E.
Defined.

Lemma playRest_silent_witness :
  match GatedSketch.playRest (fun _ => GatedSketch.HIGH) 7 7 GatedSketch.start with
  | Some w' => GatedSketch.extends_silently GatedSketch.start w'
  | None => False
  end.
Proof.
  destruct (GatedSketch.playRest (fun _ => GatedSketch.HIGH) 7 7 GatedSketch.start)
    as [w'|] eqn:E.
  - exact (playRest_silent (fun _ => GatedSketch.HIGH) 7 7 GatedSketch.start w' E).
  - vm_compute in E. discriminate E.
Defined.

Lemma playRest_released_witness :
  exists w',
    GatedSketch.playRest (fun _ => GatedSketch.HIGH) (Z.to_nat 7) 7 GatedSketch.start
    = Some w'
    /\ GatedSketch.trace w'
       = GatedSketch.trace GatedSketch.start
         ++ NoTone GatedSketch.BUZZ_PIN :: repeat (Delay 2) (Z.to_nat ((7 + 1) / 2))
    /\ GatedSketch.now w' - GatedSketch.now GatedSketch.start = 2 * ((7 + 1) / 2)
    /\ 7 <= GatedSketch.now w' - GatedSketch.now GatedSketch.start.
Proof.
  apply (playRest_released 7 GatedSketch.start);
    try reflexivity; unfold is_u16; cbn; lia.
Defined.

(** ** Notes of the gated sketch *)

Section GatedNotes.
Import GatedSketch.

Lemma extends_in_range_refl (w : world) : extends_in_range w w.
Proof. exists []. split; [now rewrite app_nil_r | reflexivity]. Qed.

Lemma extends_in_range_trans (w1 w2 w3 : world) :
  extends_in_range w1 w2 -> extends_in_range w2 w3 -> extends_in_range w1 w3.
Proof.
  intros (t1 & E1 & S1) (t2 & E2 & S2). exists (t1 ++ t2). split.
  - rewrite E2, E1, app_assoc. reflexivity.
  - rewrite tones_in_app, S1, S2. reflexivity.
Qed.

Lemma silent_in_range (pin lo hi : Z) (tr : list action) :
  enables_tone tr = false -> tones_in pin lo hi tr = true.
Proof.
  induction tr as [|a tr IH]; [reflexivity|].
  destruct a; cbn; try discriminate; exact IH.
Qed.

Lemma extends_silently_in_range (w w' : world) :
  extends_silently w w' -> extends_in_range w w'.
Proof.
  intros (tr & E & S). exists tr. split; [exact E|].
  now apply silent_in_range.
Qed.

(** The frequency handed to [tone] is clamped. *)
Lemma adjFreq_range (freq : Z) (pitchMul : float) :
  60 <= adjFreq freq pitchMul <= 4000.
Proof.
  unfold adjFreq.
  set (a := u32 (trunc (add (mul (of_Z freq) pitchMul) half))).
  destruct (Z.ltb_spec a 60).
  - change (4000 <? 60) with false. cbv iota. rewrite u16_small; lia.
  - destruct (Z.ltb_spec 4000 a); rewrite u16_small; lia.
Qed.

Lemma tone_in_range (f : Z) (w : world) :
  60 <= f <= 4000 -> extends_in_range w (tone f w).
Proof.
  intros Hf. exists [Tone BUZZ_PIN f]. split; [reflexivity|].
  cbn. destruct (Z.leb_spec 60 f); [|lia].
  destruct (Z.leb_spec f 4000); [|lia]. reflexivity.
Qed.

Lemma playSlice_in_range (f slice onMs : Z) (w : world) :
  60 <= f <= 4000 -> extends_in_range w (playSlice f slice onMs w).
Proof.
  intros Hf. unfold playSlice.
  assert (H1 : extends_in_range w
                 (if 0 <? onMs then delay onMs (tone f w) else noTone w)).
  { destruct (0 <? onMs).
    - eapply extends_in_range_trans; [apply tone_in_range, Hf|].
      apply extends_silently_in_range, delay_silent.
    - apply extends_silently_in_range, noTone_silent. }
  eapply extends_in_range_trans; [exact H1|].
  apply extends_silently_in_range.
  destruct (onMs <? slice).
  - eapply extends_silently_trans; [apply noTone_silent | apply delay_silent].
  - apply noTone_silent.
Qed.

Variable digitalRead : Z -> bool.
Variable analogReadVol analogReadPitch : Z -> Z.
Variable powf : float -> float -> float.

Lemma gatedLoop_in_range (fuel : nat) (f : Z) (volDuty : float)
  (remaining : Z) (w w' : world) :
  60 <= f <= 4000 ->
  gatedLoop digitalRead fuel f volDuty remaining w = Some w' ->
  extends_in_range w w'.
Proof.
  intros Hf. revert remaining w.
  induction fuel as [|fuel IH]; intros remaining w; cbn [gatedLoop];
    destruct (0 <? remaining); try discriminate;
    try (intros [= <-]; apply extends_in_range_refl).
  destruct (waitWhilePaused digitalRead (S fuel) (handlePauseButton digitalRead w))
    as [w1|] eqn:Hw; [|discriminate].
  intros H. apply IH in H. apply waitWhilePaused_silent in Hw.
  eapply extends_in_range_trans;
    [apply extends_silently_in_range, handlePauseButton_silent|].
  eapply extends_in_range_trans; [apply extends_silently_in_range, Hw|].
  eapply extends_in_range_trans; [apply playSlice_in_range, Hf | exact H].
Qed.

Lemma playToneGated_in_range (fuel : nat) (freq durMs : Z) (w w' : world) :
  playToneGated digitalRead analogReadVol analogReadPitch fuel freq durMs w
  = Some w' ->
  extends_in_range w w'.
Proof.
  unfold playToneGated.
  destruct (gatedLoop _ _ _ _ _ _) as [w1|] eqn:Hl; [|discriminate].
  intros [= <-]. apply gatedLoop_in_range in Hl; [|apply adjFreq_range].
  eapply extends_in_range_trans; [exact Hl|].
  apply extends_silently_in_range, delay_silent.
Qed.

Lemma gated_playEvent_in_range (fuel : nat) (note tks : Z) (w w' : world) :
  playEvent digitalRead analogReadVol analogReadPitch powf fuel note tks w
  = Some w' ->
  extends_in_range w w'.
Proof.
  unfold playEvent.
  destruct (waitWhilePaused digitalRead fuel (handlePauseButton digitalRead w))
    as [w1|] eqn:Hw; [|discriminate].
  apply waitWhilePaused_silent in Hw.
  intros H.
  eapply extends_in_range_trans;
    [apply extends_silently_in_range, handlePauseButton_silent|].
  eapply extends_in_range_trans; [apply extends_silently_in_range, Hw|].
  destruct (note <? 0).
  - apply extends_silently_in_range.
    unfold playRest in H. apply restLoop_silent in H.
    eapply extends_silently_trans; [apply noTone_silent | exact H].
  - match type of H with
    | (if ?c then _ else _) = _ => destruct c
    end.
    + apply extends_silently_in_range.
      unfold playRest in H. apply restLoop_silent in H.
      eapply extends_silently_trans; [apply noTone_silent | exact H].
    + eapply playToneGated_in_range. exact H.
Qed.

Lemma playEvents_in_range (fuel : nat) (notes ticks : list Z) (n : nat)
  (i : Z) (w w' : world) :
  playEvents digitalRead analogReadVol analogReadPitch powf fuel notes ticks i n w
  = Some w' ->
  extends_in_range w w'.
Proof.
  revert i w. induction n as [|n IH]; intros i w; cbn [playEvents].
  - intros [= <-]. apply extends_in_range_refl.
  - destruct (playEvent _ _ _ _ _ _ _ _) as [w1|] eqn:He; [|discriminate].
    intros H. apply IH in H. apply gated_playEvent_in_range in He.
    eapply extends_in_range_trans; eassumption.
Qed.

End GatedNotes.

(** X15: whatever the tables, the pots, the button and [powf] do, a pass of
    the gated sketch's [loop] that returns has enabled the tone only on the
    buzzer pin and only between 60 and 4000 Hz. *)
Theorem gated_loop_tones (digitalRead : Z -> bool)
  (analogReadVol analogReadPitch : Z -> Z) (powf : float -> float -> float)
  (fuel : nat) (notes ticks : list Z) (w w' : GatedSketch.world) :
  GatedSketch.loop_over digitalRead analogReadVol analogReadPitch powf
    fuel notes ticks w = Some w' ->
  GatedSketch.extends_in_range w w'.
Proof.
  unfold GatedSketch.loop_over.
  destruct (GatedSketch.playEvents _ _ _ _ _ _ _ _ _ _) as [w1|] eqn:He;
    [|discriminate].
  intros H. apply playEvents_in_range in He.
  eapply extends_in_range_trans; [exact He|].
  apply extends_silently_in_range.
  unfold GatedSketch.playRest in H. apply restLoop_silent in H.
  eapply extends_silently_trans; [apply noTone_silent | exact H].
Qed.

(** One note and one rest of 96 ticks, both pots at mid-travel. *)
Lemma gated_loop_tones_witness :
  match GatedSketch.loop_over (fun _ => GatedSketch.HIGH) (fun _ => 512)
          (fun _ => 512) powf_whole 1100 [69; -1] [96; 96] GatedSketch.start with
  | Some w' => GatedSketch.extends_in_range GatedSketch.start w'
  | None => False
  end.
Proof.
  destruct (GatedSketch.loop_over (fun _ => GatedSketch.HIGH) (fun _ => 512)
              (fun _ => 512) powf_whole 1100 [69; -1] [96; 96] GatedSketch.start)
    as [w'|] eqn:E.
  - exact (gated_loop_tones _ _ _ _ _ _ _ _ _ E).
  - vm_compute in E. discriminate E.
Defined.

(** ** Slices of the gated sketch *)

Section GatedSlices.
Import GatedSketch.

Lemma sliceOf_range (remaining : Z) :
  0 < remaining -> 1 <= sliceOf remaining <= 8 /\ sliceOf remaining <= remaining.
Proof.
  intros Hr. unfold sliceOf, SLICE_MS.
  destruct (Z.leb_spec 8 remaining); [lia|].
  rewrite u8_small by lia. lia.
Qed.

Lemma sliceOnMs_range (slice : Z) (volDuty : float) :
  0 <= slice -> 0 <= sliceOnMs slice volDuty <= slice.
Proof.
  intros Hs. unfold sliceOnMs.
  set (x := u8 (trunc (add (mul (of_Z slice) volDuty) half))).
  pose proof (u8_range (trunc (add (mul (of_Z slice) volDuty) half))).
  fold x in H. destruct (Z.ltb_spec slice x); lia.
Qed.

(** A slice takes exactly its length, sounds for [onMs] of it and leaves
    the tone off; it touches nothing but the clock and the buzzer. *)
Lemma playSlice_run (f slice onMs : Z) (w : world) :
  1 <= slice <= 8 -> 0 <= onMs <= slice ->
  0 <= now w -> now w + slice < 2 ^ 32 ->
  exists tr,
    trace (playSlice f slice onMs w) = trace w ++ tr
    /\ now (playSlice f slice onMs w) = now w + slice
    /\ paused (playSlice f slice onMs w) = paused w
    /\ lastRead (playSlice f slice onMs w) = lastRead w
    /\ lastStable (playSlice f slice onMs w) = lastStable w
    /\ elapsed_ms tr = slice
    /\ (forall b, audible_ms b tr = onMs)
    /\ (forall b, tone_after b tr = false)
    /\ (onMs = 0 -> enables_tone tr = false).
Proof.
  intros Hs Ho Hn Hw. unfold playSlice.
  destruct (Z.ltb_spec 0 onMs); destruct (Z.ltb_spec onMs slice);
    cbn [delay noTone tone emit trace now paused lastRead lastStable];
    rewrite <- ?app_assoc; cbn [app];
    rewrite ?(u8_small (slice - onMs)) by lia;
    rewrite ?(u32_small (now w + onMs)) by lia;
    rewrite ?u32_small by lia;
    eexists; (split; [reflexivity|]);
    cbn [elapsed_ms audible_ms tone_after enables_tone existsb orb];
    repeat split; intros; try reflexivity; try lia.
Qed.

Variable analogReadVol analogReadPitch : Z -> Z.

(** With the button left alone the slices of a note run one after the
    other, each for its length. *)
Lemma gatedLoop_released (fuel : nat) (f : Z) (volDuty : float)
  (remaining : Z) (w : world) :
  (Z.to_nat remaining <= fuel)%nat ->
  0 <= remaining < 2 ^ 16 ->
  paused w = false -> lastRead w = HIGH -> lastStable w = HIGH ->
  0 <= now w -> now w + remaining < 2 ^ 32 ->
  exists w' tr,
    gatedLoop (fun _ => HIGH) fuel f volDuty remaining w = Some w'
    /\ trace w' = trace w ++ tr
    /\ now w' = now w + remaining
    /\ elapsed_ms tr = remaining
    /\ tone_after false tr = false
    /\ (forall b, 0 <= audible_ms b tr <= remaining)
    /\ ((forall s, 1 <= s <= 8 -> sliceOnMs s volDuty = s) ->
        forall b, audible_ms b tr = remaining)
    /\ ((forall s, 1 <= s <= 8 -> sliceOnMs s volDuty = 0) ->
        enables_tone tr = false).
Proof.
  revert remaining w.
  induction fuel as [|fuel IH];
    intros remaining w Hfuel Hr Hp Hlr Hls Hn Hw; cbn [gatedLoop];
    destruct (Z.ltb_spec 0 remaining) as [Hpos | Hzero]; try lia;
    try (exists w, []; rewrite app_nil_r; cbn;
         repeat split; intros; try reflexivity; lia).
  rewrite handlePauseButton_released by assumption.
  cbn [waitWhilePaused]. rewrite Hp.
  destruct (sliceOf_range remaining Hpos) as [Hs Hsr].
  set (slice := sliceOf remaining) in *.
  pose proof (sliceOnMs_range slice volDuty ltac:(lia)) as Ho.
  set (onMs := sliceOnMs slice volDuty) in *.
  destruct (playSlice_run f slice onMs w) as
    (tr1 & Etr & Enow & Ep & Elr & Els & Eel & Eau & Eoff & Esil); try lia.
  rewrite (u16_small (remaining - slice)) by lia.
  destruct (IH (remaining - slice) (playSlice f slice onMs w)) as
    (w' & tr2 & Erun & Etr2 & Enow2 & Eel2 & Eoff2 & Eau2 & Efull & Emute);
    try lia; try congruence.
  exists w', (tr1 ++ tr2). split; [exact Erun|].
  split; [rewrite Etr2, Etr, app_assoc; reflexivity|].
  split; [lia|].
  split; [rewrite elapsed_ms_app; lia|].
  split; [rewrite tone_after_app, Eoff; exact Eoff2|].
  split; [|split].
  - intros b. rewrite audible_ms_app, Eau, Eoff.
    specialize (Eau2 false). lia.
  - intros Hfull b. rewrite audible_ms_app, Eau, Eoff.
    rewrite (Efull Hfull false). subst onMs. rewrite (Hfull slice) by lia. lia.
  - intros Hmute. rewrite enables_tone_app.
    rewrite Esil, (Emute Hmute); [reflexivity|].
    subst onMs. apply Hmute. lia.
Qed.

End GatedSlices.

(** ** Timing and volume of a gated note *)

Section GatedVolume.
Import GatedSketch.

Lemma sliceOnMs_full (s : Z) : 1 <= s <= 8 -> sliceOnMs s one = s.
Proof.
  intros Hs.
  assert (Hc : s = 1 \/ s = 2 \/ s = 3 \/ s = 4 \/ s = 5 \/ s = 6 \/ s = 7 \/ s = 8)
    by lia.
  repeat (destruct Hc as [-> | Hc]); try subst s; vm_compute; reflexivity.
Qed.

Lemma sliceOnMs_mute (s : Z) : 1 <= s <= 8 -> sliceOnMs s zero = 0.
Proof.
  intros Hs.
  assert (Hc : s = 1 \/ s = 2 \/ s = 3 \/ s = 4 \/ s = 5 \/ s = 6 \/ s = 7 \/ s = 8)
    by lia.
  repeat (destruct Hc as [-> | Hc]); try subst s; vm_compute; reflexivity.
Qed.

Lemma duty_full : clampDuty (div (of_Z 1023) (of_Z 1023)) = one.
Proof. vm_compute. reflexivity. Qed.

Lemma duty_mute : clampDuty (div (of_Z 0) (of_Z 1023)) = zero.
Proof. vm_compute. reflexivity. Qed.

Variable analogReadVol analogReadPitch : Z -> Z.

(** An undisturbed note, slice by slice and with its closing 5 ms. *)
Lemma playToneGated_run (freq durMs : Z) (w : world) :
  is_u16 durMs ->
  paused w = false -> lastRead w = HIGH -> lastStable w = HIGH ->
  0 <= now w -> now w + durMs + 5 < 2 ^ 32 ->
  exists w' tr,
    playToneGated (fun _ => HIGH) analogReadVol analogReadPitch
      (Z.to_nat durMs) freq durMs w = Some w'
    /\ trace w' = trace w ++ tr
    /\ now w' = now w + durMs + 5
    /\ elapsed_ms tr = durMs + 5
    /\ 0 <= audible_ms false tr <= durMs
    /\ (analogReadVol (now w) = 1023 -> audible_ms false tr = durMs)
    /\ (analogReadVol (now w) = 0 -> enables_tone tr = false).
Proof.
  intros Hd Hp Hlr Hls Hn Hw. unfold is_u16 in Hd. unfold playToneGated.
  destruct (gatedLoop_released (Z.to_nat durMs)
              (adjFreq freq (readPitchMultiplier analogReadPitch w))
              (clampDuty (readVolumeDuty analogReadVol w)) durMs w)
    as (w1 & tr1 & Erun & Etr & Enow & Eel & Eoff & Eau & Efull & Emute);
    try assumption; try lia.
  rewrite Erun. exists (delay 5 w1), (tr1 ++ [Delay 5]).
  split; [reflexivity|].
  cbn [delay emit trace now].
  split; [rewrite Etr, app_assoc; reflexivity|].
  split; [rewrite u32_small by lia; lia|].
  split; [rewrite elapsed_ms_app; cbn [elapsed_ms]; lia|].
  split; [|split].
  - rewrite audible_ms_app, Eoff. cbn [audible_ms]. specialize (Eau false). lia.
  - intros Hv. rewrite audible_ms_app, Eoff. cbn [audible_ms].
    rewrite Efull; [lia|].
    unfold readVolumeDuty. rewrite Hv, duty_full. exact sliceOnMs_full.
  - intros Hv. rewrite enables_tone_app, Emute; [reflexivity|].
    unfold readVolumeDuty. rewrite Hv, duty_mute. exact sliceOnMs_mute.
Qed.

End GatedVolume.

(** X16: with the button left alone a gated note keeps time whatever the
    pots say: it returns after exactly [durMs] and the closing 5 ms, and is
    audible for no more than [durMs]. *)
Theorem playToneGated_keeps_time (analogReadVol analogReadPitch : Z -> Z)
  (freq durMs : Z) (w : GatedSketch.world) :
  is_u16 durMs ->
  GatedSketch.paused w = false ->
  GatedSketch.lastRead w = GatedSketch.HIGH ->
  GatedSketch.lastStable w = GatedSketch.HIGH ->
  0 <= GatedSketch.now w -> GatedSketch.now w + durMs + 5 < 2 ^ 32 ->
  exists w' tr,
    GatedSketch.playToneGated (fun _ => GatedSketch.HIGH) analogReadVol
      analogReadPitch (Z.to_nat durMs) freq durMs w = Some w'
    /\ GatedSketch.trace w' = GatedSketch.trace w ++ tr
    /\ GatedSketch.now w' = GatedSketch.now w + durMs + 5
    /\ elapsed_ms tr = durMs + 5
    /\ 0 <= audible_ms false tr <= durMs.
Proof.
  intros Hd Hp Hlr Hls Hn Hw.
  destruct (playToneGated_run analogReadVol analogReadPitch freq durMs w)
    as (w' & tr & H1 & H2 & H3 & H4 & H5 & _); try assumption.
  exists w', tr. repeat split; try assumption; lia.
Qed.

Lemma playToneGated_keeps_time_witness :
  exists w' tr,
    GatedSketch.playToneGated (fun _ => GatedSketch.HIGH) (fun _ => 512)
      (fun _ => 512) (Z.to_nat 125) 440 125 GatedSketch.start = Some w'
    /\ GatedSketch.trace w' = GatedSketch.trace GatedSketch.start ++ tr
    /\ GatedSketch.now w' = GatedSketch.now GatedSketch.start + 125 + 5
    /\ elapsed_ms tr = 125 + 5
    /\ 0 <= audible_ms false tr <= 125.
Proof.
  apply (playToneGated_keeps_time (fun _ => 512) (fun _ => 512) 440 125
           GatedSketch.start);
    try reflexivity; unfold is_u16; cbn; lia.
Defined.

(** X17: with the button left alone, a note played with the volume pot at
    1023 is audible for the whole of [durMs], and one played with the
    volume pot at 0 never enables the tone. *)
Theorem playToneGated_volume_ends (analogReadVol analogReadPitch : Z -> Z)
  (freq durMs : Z) (w : GatedSketch.world) :
  is_u16 durMs ->
  GatedSketch.paused w = false ->
  GatedSketch.lastRead w = GatedSketch.HIGH ->
  GatedSketch.lastStable w = GatedSketch.HIGH ->
  0 <= GatedSketch.now w -> GatedSketch.now w + durMs + 5 < 2 ^ 32 ->
  exists w' tr,
    GatedSketch.playToneGated (fun _ => GatedSketch.HIGH) analogReadVol
      analogReadPitch (Z.to_nat durMs) freq durMs w = Some w'
    /\ GatedSketch.trace w' = GatedSketch.trace w ++ tr
    /\ (analogReadVol (GatedSketch.now w) = 1023 -> audible_ms false tr = durMs)
    /\ (analogReadVol (GatedSketch.now w) = 0 -> enables_tone tr = false).
Proof.
  intros Hd Hp Hlr Hls Hn Hw.
  destruct (playToneGated_run analogReadVol analogReadPitch freq durMs w)
    as (w' & tr & H1 & H2 & _ & _ & _ & H6 & H7); try assumption.
  exists w', tr. repeat split; assumption.
Qed.

Lemma playToneGated_volume_ends_witness :
  exists w' tr,
    GatedSketch.playToneGated (fun _ => GatedSketch.HIGH) (fun _ => 1023)
      (fun _ => 512) (Z.to_nat 125) 440 125 GatedSketch.start = Some w'
    /\ GatedSketch.trace w' = GatedSketch.trace GatedSketch.start ++ tr
    /\ audible_ms false tr = 125.
Proof.
  destruct (playToneGated_volume_ends (fun _ => 1023) (fun _ => 512) 440 125
              GatedSketch.start) as (w' & tr & H1 & H2 & H3 & _);
    try reflexivity; try (unfold is_u16; cbn; lia).
  exists w', tr. split; [exact H1|]. split; [exact H2|]. apply H3. reflexivity.
Defined.

(** ** The pitch pot of the gated sketch *)

(** The three multipliers below, tried on every frequency up to 4000. *)
Lemma adjFreq_checked :
  forallb (fun n =>
             let f := Z.of_nat n in
             (GatedSketch.adjFreq f
                (add half (mul (div (of_Z 0) (of_Z 1023)) GatedSketch.one_and_half))
              =? Z.max 60 ((f + 1) / 2))
             && (GatedSketch.adjFreq f
                   (add half (mul (div (of_Z 341) (of_Z 1023)) GatedSketch.one_and_half))
                 =? Z.max 60 f)
             && (GatedSketch.adjFreq f
                   (add half (mul (div (of_Z 1023) (of_Z 1023)) GatedSketch.one_and_half))
                 =? Z.max 60 (Z.min 4000 (2 * f))))
          (seq 0 4001) = true.
Proof. vm_compute. reflexivity. Qed.

(** X18: for a note of up to 4000 Hz, the pitch pot at 0 halves the frequency
    (rounding halves up), at 341 leaves it as it is and at 1023 doubles it,
    within the limits of 60 and 4000 Hz. *)
Theorem pitch_pot_ends (analogReadPitch : Z -> Z) (freq : Z)
  (w : GatedSketch.world) :
  0 <= freq <= 4000 ->
  (analogReadPitch (GatedSketch.now w) = 0 ->
   GatedSketch.adjFreq freq (GatedSketch.readPitchMultiplier analogReadPitch w)
   = Z.max 60 ((freq + 1) / 2))
  /\ (analogReadPitch (GatedSketch.now w) = 341 ->
      GatedSketch.adjFreq freq (GatedSketch.readPitchMultiplier analogReadPitch w)
      = Z.max 60 freq)
  /\ (analogReadPitch (GatedSketch.now w) = 1023 ->
      GatedSketch.adjFreq freq (GatedSketch.readPitchMultiplier analogReadPitch w)
      = Z.max 60 (Z.min 4000 (2 * freq))).
Proof.
  intros Hf.
  pose proof (proj1 (forallb_forall _ _) adjFreq_checked (Z.to_nat freq)) as H.
  cbv beta zeta in H. rewrite Z2Nat.id in H by lia.
  assert (Hin : In (Z.to_nat freq) (seq 0 4001)) by (apply in_seq; lia).
  apply H in Hin. apply andb_prop in Hin. destruct Hin as [Hin H3].
  apply andb_prop in Hin. destruct Hin as [H1 H2].
  apply Z.eqb_eq in H1, H2, H3.
  unfold GatedSketch.readPitchMultiplier.
  repeat split; intros ->; assumption.
Qed.

Lemma pitch_pot_ends_witness :
  GatedSketch.adjFreq 440 (GatedSketch.readPitchMultiplier (fun _ => 0) GatedSketch.start)
  = 220
  /\ GatedSketch.adjFreq 440 (GatedSketch.readPitchMultiplier (fun _ => 341) GatedSketch.start)
     = 440
  /\ GatedSketch.adjFreq 3000 (GatedSketch.readPitchMultiplier (fun _ => 1023) GatedSketch.start)
     = 4000.
Proof.
  destruct (pitch_pot_ends (fun _ => 0) 440 GatedSketch.start) as (H1 & _ & _);
    [lia|].
  destruct (pitch_pot_ends (fun _ => 341) 440 GatedSketch.start) as (_ & H2 & _);
    [lia|].
  destruct (pitch_pot_ends (fun _ => 1023) 3000 GatedSketch.start) as (_ & _ & H3);
    [lia|].
  split; [apply H1; reflexivity|]. split; [apply H2 | apply H3]; reflexivity.
Defined.
